(** * Oxidate icon generator: [tools/gen_icon.py]

    A shallow embedding of the icon pipeline (render, export the iconset,
    package) and the proofs of its specified properties.

    - Python [float] is IEEE-754 binary64.  [Float64] models the finite
      doubles as the rationals they denote and every arithmetic operation as
      the exact result rounded to nearest, ties to even (53-bit significand,
      gradual underflow at 2^-1074).  Exponent overflow is not modelled: it
      needs magnitudes of 2^1024, far beyond any image size.
    - Pillow is an external library.  [PIL] keeps an image as the term of the
      library calls that produced it, together with what the library fixes
      about such a call: the mode and size of the result, the pixels written
      through a pixel-access object, and the conditions under which the call
      raises.  Memory limits are not modelled.
    - The file system is a tree of directories and files; [pathlib] and
      [shutil] calls are functions on that tree.
    - The external [iconutil] program is a parameter of the pipeline.

    Definitions come first: the model of the libraries, the program, the
    vocabulary of the statements and sample inputs.  The facts about them
    follow, and the specified properties close the file. *)

From Stdlib Require Import ZArith QArith Qabs Qround Qpower Lia Lqa Floats.
From stdpp Require Import gmap strings list.

#[local] Set Warnings "-register-all,-inexact-float".

(* ================================================================== *)
(** * Exceptions and the error monad *)

Inductive Exn : Type :=
| ValueError
| IndexError
| OSError
| FileExistsError
| FileNotFoundError
| NotADirectoryError
| IsADirectoryError
| CalledProcessError (returncode : Z).

Inductive result (A : Type) : Type :=
| Ok (a : A)
| Raise (e : Exn).
Arguments Ok {A} a.
Arguments Raise {A} e.

#[global] Instance result_ret : MRet result := fun A a => Ok a.
#[global] Instance result_bind : MBind result := fun A B f m =>
  match m with
  | Ok a => f a
  | Raise e => Raise e
  end.

(** A [for] loop whose body may raise. *)
Fixpoint foldM {A B : Type} (f : A -> B -> result A) (a : A) (l : list B) : result A :=
  match l with
  | [] => Ok a
  | b :: l' => a' ← f a b; foldM f a' l'
  end.

(* ================================================================== *)
(** * Python floats *)

Module Float64.
#[local] Open Scope Q_scope.

(** [ilog2 q] is the binary exponent of [q > 0]: [2^ilog2 q <= q < 2^(ilog2 q + 1)]. *)
Definition ilog2 (q : Q) : Z :=
  let k := (Z.log2 (Qnum q) - Z.log2 (Zpos (Qden q)))%Z in
  if Qle_bool (2 ^ k) q then k else (k - 1)%Z.

(** Exponent of the unit in the last place of the double nearest to [q > 0]. *)
Definition expo (q : Q) : Z := Z.max (ilog2 q - 52) (-1074).

(** Nearest integer, ties to even. *)
Definition rneQ (s : Q) : Z :=
  let f := Qfloor s in
  match Qcompare (s - inject_Z f) (1 # 2) with
  | Lt => f
  | Gt => (f + 1)%Z
  | Eq => if Z.even f then f else (f + 1)%Z
  end.

Definition round_pos (q : Q) : Q :=
  let e := expo q in inject_Z (rneQ (q * 2 ^ (- e))) * 2 ^ e.

(** The double nearest to the real number [q]. *)
Definition round_ne (q : Q) : Q :=
  match Qcompare q 0 with
  | Eq => 0
  | Gt => Qred (round_pos q)
  | Lt => Qred (- round_pos (- q))
  end.

(** A decimal literal such as [0.41]. *)
Definition lit (q : Q) : Q := round_ne q.
(** [float(n)], the conversion applied to an [int] operand of a mixed operation. *)
Definition of_int (n : Z) : Q := round_ne (inject_Z n).
(** [a / b] on two [int]s: the correctly rounded quotient. *)
Definition int_div (a b : Z) : Q := round_ne (inject_Z a / inject_Z b).
Definition add (x y : Q) : Q := round_ne (x + y).
Definition sub (x y : Q) : Q := round_ne (x - y).
Definition mul (x y : Q) : Q := round_ne (x * y).
(** [int(x)]: truncation toward zero. *)
Definition trunc (q : Q) : Z := if Qle_bool 0 q then Qfloor q else Qceiling q.

End Float64.

(** The doubles of the machine, to compare the model with. *)
Module Hardware.

(** The rational number a finite double stands for. *)
Definition SF2Q (f : SpecFloat.spec_float) : option Q :=
  match f with
  | SpecFloat.S754_zero _ => Some 0%Q
  | SpecFloat.S754_finite s m e =>
      Some (Qred (inject_Z (if s then Z.neg m else Z.pos m) * 2 ^ e)%Q)
  | _ => None
  end.

Definition value (f : float) : option Q := SF2Q (Prim2SF f).

(** [float(n)] for a small non-negative [n]. *)
Definition i2f (n : Z) : float := PrimFloat.of_uint63 (Uint63.of_Z n).

End Hardware.

(* ================================================================== *)
(** * Pillow images *)

Module PIL.
Import Float64.

Inductive Mode : Type := RGBA | L.
Inductive Resampling : Type := BILINEAR | LANCZOS.

Definition Color : Type := Z * Z * Z * Z.

Inductive Ink : Type :=
| Gray (v : Z)
| Rgba (c : Color).

Definition BBox : Type := Q * Q * Q * Q.

(** An image is the term of the library calls that built it. *)
Inductive Image : Type :=
| Blank (m : Mode) (w h : Z) (fill : Ink)
| PutPixel (im : Image) (x y : Z) (c : Ink)
| Ellipse (im : Image) (box : BBox) (fill : Ink)
| GaussianBlur (im : Image) (radius : Q)
| Resized (im : Image) (w h : Z) (resample : Resampling)
| Composite (image1 image2 mask : Image)
| AlphaComposite (dst src : Image).

Fixpoint mode (im : Image) : Mode :=
  match im with
  | Blank m _ _ _ => m
  | PutPixel im _ _ _ => mode im
  | Ellipse im _ _ => mode im
  | GaussianBlur im _ => mode im
  | Resized im _ _ _ => mode im
  | Composite _ image2 _ => mode image2
  | AlphaComposite dst _ => mode dst
  end.

Fixpoint size (im : Image) : Z * Z :=
  match im with
  | Blank _ w h _ => (w, h)
  | PutPixel im _ _ _ => size im
  | Ellipse im _ _ => size im
  | GaussianBlur im _ => size im
  | Resized _ w h _ => (w, h)
  | Composite _ image2 _ => size image2
  | AlphaComposite dst _ => size dst
  end.

Definition in_bounds (im : Image) (x y : Z) : bool :=
  (0 <=? x)%Z && (x <? fst (size im))%Z && (0 <=? y)%Z && (y <? snd (size im))%Z.

(** The pixel at [(x, y)] where the program itself determines it: a fresh
    image and the pixels stored into it.  What the library's filters compute
    is left to the library. *)
Fixpoint getpixel (im : Image) (x y : Z) : option Ink :=
  match im with
  | Blank _ _ _ fill => if in_bounds im x y then Some fill else None
  | PutPixel im' x' y' c =>
      if (x =? x')%Z && (y =? y')%Z then Some c else getpixel im' x y
  | _ => None
  end.

Definition mode_eqb (a b : Mode) : bool :=
  match a, b with
  | RGBA, RGBA | L, L => true
  | _, _ => false
  end.

Definition size_eqb (a b : Z * Z) : bool :=
  (fst a =? fst b)%Z && (snd a =? snd b)%Z.

(** [Image.new(mode, size, color)]; a negative size is a [ValueError]. *)
Definition Image_new (m : Mode) (sz : Z * Z) (color : Ink) : result Image :=
  if (fst sz <? 0)%Z || (snd sz <? 0)%Z then Raise ValueError
  else Ok (Blank m (fst sz) (snd sz) color).

Definition clip8 (v : Z) : Z := Z.max 0 (Z.min 255 v).

Definition clip_ink (c : Ink) : Ink :=
  match c with
  | Gray v => Gray (clip8 v)
  | Rgba (r, g, b, a) => Rgba (clip8 r, clip8 g, clip8 b, clip8 a)
  end.

(** [px[x, y] = c] on the pixel access of [im]: negative indices count from
    the far edge, an index out of range is an [IndexError], channel values
    are clipped to a byte. *)
Definition putpixel (im : Image) (xy : Z * Z) (c : Ink) : result Image :=
  let x := if (fst xy <? 0)%Z then (fst (size im) + fst xy)%Z else fst xy in
  let y := if (snd xy <? 0)%Z then (snd (size im) + snd xy)%Z else snd xy in
  if in_bounds im x y then Ok (PutPixel im x y (clip_ink c)) else Raise IndexError.

(** [ImageDraw.Draw(im).ellipse(box, fill=fill)]; the box must be ordered. *)
Definition ellipse (im : Image) (box : BBox) (fill : Ink) : result Image :=
  let '(x0, y0, x1, y1) := box in
  if Qle_bool x0 x1 && Qle_bool y0 y1 then Ok (Ellipse im box fill)
  else Raise ValueError.

(** [im.filter(ImageFilter.GaussianBlur(radius))]. *)
Definition filter_GaussianBlur (im : Image) (radius : Q) : result Image :=
  Ok (GaussianBlur im radius).

(** [im.resize(size, resample)]; both sides must be at least one pixel. *)
Definition resize (im : Image) (sz : Z * Z) (resample : Resampling) : result Image :=
  if (fst sz <? 1)%Z || (snd sz <? 1)%Z then Raise ValueError
  else Ok (Resized im (fst sz) (snd sz) resample).

(** [Image.composite(image1, image2, mask)]: [image1] is pasted over a copy of
    [image2] through [mask], which must have the size of [image1]. *)
Definition composite (image1 image2 mask : Image) : result Image :=
  if size_eqb (size image1) (size mask) then Ok (Composite image1 image2 mask)
  else Raise ValueError.

(** [dst.alpha_composite(src)], in place; both images must be RGBA. *)
Definition alpha_composite (dst src : Image) : result Image :=
  if mode_eqb (mode dst) RGBA && mode_eqb (mode src) RGBA
  then Ok (AlphaComposite dst src) else Raise ValueError.

End PIL.

(* ================================================================== *)
(** * The file system *)

Module FS.
Import PIL.

Inductive Content : Type :=
| PNG (im : Image)
| Blob (tag : string).

Inductive node : Type :=
| File (data : Content)
| Dir (entries : gmap string node).

(** A directory listing; the whole file system is the listing of the
    working directory. *)
Abbreviation Listing := (gmap string node).

(** A path is the list of its components below the working directory. *)
Abbreviation Path := (list string).

Definition joinpath (p : Path) (name : string) : Path := p ++ [name].
Definition parent (p : Path) : Path := removelast p.

Fixpoint split_last (p : Path) : option (Path * string) :=
  match p with
  | [] => None
  | [n] => Some ([], n)
  | n :: rest =>
      match split_last rest with
      | Some (d, l) => Some (n :: d, l)
      | None => None
      end
  end.

Definition str (p : Path) : string :=
  match p with
  | [] => "."
  | _ => String.concat "/" p
  end.

Fixpoint stat (p : Path) (fs : Listing) : option node :=
  match p with
  | [] => Some (Dir fs)
  | n :: rest =>
      match fs !! n with
      | Some (Dir sub) => stat rest sub
      | Some (File c) => match rest with [] => Some (File c) | _ => None end
      | None => None
      end
  end.

(** A regular file stands where [p] needs a directory. *)
Fixpoint blocked (p : Path) (fs : Listing) : bool :=
  match p with
  | [] => false
  | n :: rest =>
      match fs !! n with
      | Some (Dir sub) => blocked rest sub
      | Some (File _) => true
      | None => false
      end
  end.

(** [p.exists()] *)
Definition exists_ (p : Path) (fs : Listing) : bool :=
  match stat p fs with
  | Some _ => true
  | None => false
  end.

(** Run [f] on the listing of the directory [dir]. *)
Fixpoint at_dir (dir : Path) (f : Listing -> result Listing) (fs : Listing) : result Listing :=
  match dir with
  | [] => f fs
  | n :: rest =>
      match fs !! n with
      | Some (Dir sub) => sub' ← at_dir rest f sub; Ok (<[n := Dir sub']> fs)
      | Some (File _) => Raise NotADirectoryError
      | None => Raise FileNotFoundError
      end
  end.

(** [p.mkdir(parents=True, exist_ok=True)] *)
Fixpoint mkdir (p : Path) (fs : Listing) : result Listing :=
  match p with
  | [] => Ok fs
  | n :: rest =>
      match fs !! n with
      | Some (Dir sub) => sub' ← mkdir rest sub; Ok (<[n := Dir sub']> fs)
      | Some (File _) =>
          Raise (match rest with [] => FileExistsError | _ => NotADirectoryError end)
      | None => sub' ← mkdir rest ∅; Ok (<[n := Dir sub']> fs)
      end
  end.

Definition remove_dir (name : string) (d : Listing) : result Listing :=
  match d !! name with
  | Some (Dir _) => Ok (delete name d)
  | Some (File _) => Raise NotADirectoryError
  | None => Raise FileNotFoundError
  end.

(** [shutil.rmtree(p)].  Removing the working directory itself empties it
    and then fails. *)
Definition rmtree (p : Path) (fs : Listing) : result unit * Listing :=
  match split_last p with
  | None => (Raise OSError, ∅)
  | Some (dir, name) =>
      match at_dir dir (remove_dir name) fs with
      | Ok fs' => (Ok (), fs')
      | Raise e => (Raise e, fs)
      end
  end.

Definition put_file (name : string) (c : Content) (d : Listing) : result Listing :=
  match d !! name with
  | Some (Dir _) => Raise IsADirectoryError
  | _ => Ok (<[name := File c]> d)
  end.

(** Create or replace the regular file [p]. *)
Definition write_file (p : Path) (c : Content) (fs : Listing) : result Listing :=
  match split_last p with
  | None => Raise IsADirectoryError
  | Some (dir, name) => at_dir dir (put_file name c) fs
  end.

End FS.

(* ================================================================== *)
(** * The process and its environment *)

Module Env.
Import PIL FS.

(** What the program can observe and change: the files, the lines printed,
    and the external programs it has started. *)
Record World : Type := mkWorld {
  files : Listing;
  stdout : list string;
  spawned : list (list string);
}.

(** An external program: given its arguments and the files, it either cannot
    be started ([None]) or exits with a status and leaves the files changed. *)
Definition Program : Type := list string -> Listing -> option (Z * Listing).

Definition IO (A : Type) : Type := World -> result A * World.

#[global] Instance IO_ret : MRet IO := fun A a w => (Ok a, w).
#[global] Instance IO_bind : MBind IO := fun A B f m w =>
  match m w with
  | (Ok a, w') => f a w'
  | (Raise e, w') => (Raise e, w')
  end.

Definition set_files (fs : Listing) (w : World) : World :=
  mkWorld fs (stdout w) (spawned w).

(** A library call that does not touch the world. *)
Definition pure {A : Type} (r : result A) : IO A := fun w => (r, w).

(** A file-system call that changes nothing when it fails. *)
Definition fs_call (f : Listing -> result Listing) : IO unit := fun w =>
  match f (files w) with
  | Ok fs' => (Ok (), set_files fs' w)
  | Raise e => (Raise e, w)
  end.

Definition path_exists (p : Path) : IO bool := fun w => (Ok (exists_ p (files w)), w).
Definition path_mkdir (p : Path) : IO unit := fs_call (mkdir p).
Definition shutil_rmtree (p : Path) : IO unit := fun w =>
  let '(r, fs') := rmtree p (files w) in (r, set_files fs' w).
(** [im.save(p)] with a [.png] name. *)
Definition save (im : Image) (p : Path) : IO unit := fs_call (write_file p (PNG im)).
Definition print (line : string) : IO unit := fun w =>
  (Ok (), mkWorld (files w) (stdout w ++ [line]) (spawned w)).

(** [subprocess.run(argv, check=True)] *)
Definition subprocess_run (prog : Program) (argv : list string) : IO unit := fun w =>
  match prog argv (files w) with
  | None => (Raise FileNotFoundError, w)
  | Some (code, fs') =>
      (if (code =? 0)%Z then Ok () else Raise (CalledProcessError code),
       mkWorld fs' (stdout w) (spawned w ++ [argv]))
  end.

End Env.

(* ================================================================== *)
(** * The program: [tools/gen_icon.py] *)

Module gen_icon.
Import Float64 PIL FS Env.

Definition BG : Color := (20, 24, 30, 255)%Z.
Definition INNER : Color := (34, 40, 52, 255)%Z.

(** One channel of a gradient pixel: [int(top + (bottom - top) * t)]. *)
Definition channel (top bottom : Z) (t : Q) : Z :=
  trunc (add (of_int top) (mul (of_int (bottom - top)) t)).

Definition gradient_pixel (top bottom : Color) (t : Q) : Color :=
  let '(t0, t1, t2, t3) := top in
  let '(b0, b1, b2, b3) := bottom in
  (channel t0 b0 t, channel t1 b1 t, channel t2 b2 t, channel t3 b3 t).

(** The loop body of [_make_vertical_gradient] at row [y]. *)
Definition gradient_row (height : Z) (top bottom : Color) (col : Image) (y : nat) : result Image :=
  let t := int_div (Z.of_nat y) (Z.max 1 (height - 1)) in
  putpixel col (0, Z.of_nat y)%Z (Rgba (gradient_pixel top bottom t)).

Definition _make_vertical_gradient (height : Z) (top bottom : Color) : result Image :=
  col ← Image_new RGBA (1, height)%Z (Rgba (0, 0, 0, 0)%Z);
  foldM (gradient_row height top bottom) col (seq 0 (Z.to_nat height)).

(** The radii computed by [render_icon] from the working size [ss]. *)
Definition r_outer (ss : Z) : Z := trunc (mul (lit (41 # 100)) (of_int ss)).
Definition r_inner (ss : Z) : Z := trunc (mul (lit (295 # 1000)) (of_int ss)).
Definition inner_r (ss : Z) : Z := (r_inner ss - trunc (mul (lit (1 # 100)) (of_int ss)))%Z.
Definition hd_r (ss : Z) : Z := trunc (mul (lit (5 # 100)) (of_int ss)).

(** [[c - r, c' - r, c + r, c' + r]] for a float centre and an [int] radius. *)
Definition disc (cx cy : Q) (r : Z) : BBox :=
  (sub cx (of_int r), sub cy (of_int r), add cx (of_int r), add cy (of_int r)).

(** The working canvas, [Image.new("RGBA", (ss, ss), BG)]. *)
Definition canvas (ss : Z) : result Image := Image_new RGBA (ss, ss) (Rgba BG).

Definition render_icon (base_size supersample : Z) : result Image :=
  let ss := (base_size * supersample)%Z in
  let cx := int_div ss 2 in
  let cy := cx in
  img ← canvas ss;
  (* Ring mask (donut) *)
  ring_mask ← Image_new L (ss, ss) (Gray 0);
  ring_mask ← ellipse ring_mask (disc cx cy (r_outer ss)) (Gray 255);
  ring_mask ← ellipse ring_mask (disc cx cy (r_inner ss)) (Gray 0);
  ring_mask ← filter_GaussianBlur ring_mask (mul (lit (12 # 10)) (of_int supersample));
  (* Vertical gradient for the ring *)
  grad_col ← _make_vertical_gradient ss (245, 150, 45, 255)%Z (205, 120, 35, 255)%Z;
  grad ← resize grad_col (ss, ss) BILINEAR;
  clear ← Image_new RGBA (ss, ss) (Rgba (0, 0, 0, 0)%Z);
  ring ← composite grad clear ring_mask;
  img ← alpha_composite img ring;
  (* Inner fill *)
  img ← ellipse img (disc cx cy (inner_r ss)) (Rgba INNER);
  (* Soft highlight dot *)
  let hx := add cx (of_int (trunc (mul (lit (23 # 100)) (of_int ss)))) in
  let hy := sub cy (of_int (trunc (mul (lit (21 # 100)) (of_int ss)))) in
  dot ← Image_new RGBA (ss, ss) (Rgba (0, 0, 0, 0)%Z);
  dot ← ellipse dot (disc hx hy (hd_r ss)) (Rgba (255, 230, 160, 180)%Z);
  dot ← filter_GaussianBlur dot (mul (lit (12 # 1000)) (of_int ss));
  img ← alpha_composite img dot;
  (* Downscale to final base size. *)
  resize img (base_size, base_size) LANCZOS.

Definition write_png (img : Image) (path : Path) : IO unit :=
  path_mkdir (parent path);;
  save img path.

Definition sizes : list (string * Z) :=
  [ ("icon_16x16.png", 16);
    ("icon_16x16@2x.png", 32);
    ("icon_32x32.png", 32);
    ("icon_32x32@2x.png", 64);
    ("icon_128x128.png", 128);
    ("icon_128x128@2x.png", 256);
    ("icon_256x256.png", 256);
    ("icon_256x256@2x.png", 512);
    ("icon_512x512.png", 512);
    ("icon_512x512@2x.png", 1024) ]%Z.

(** The body of the export loop for one table entry. *)
Definition write_icon (base_png : Image) (iconset_dir : Path) (entry : string * Z) : IO unit :=
  let '(name, px) := entry in
  let out := joinpath iconset_dir name in
  resized ← pure (resize base_png (px, px) LANCZOS);
  save resized out.

Fixpoint for_each {A : Type} (body : A -> IO unit) (l : list A) : IO unit :=
  match l with
  | [] => mret ()
  | a :: l' => body a;; for_each body l'
  end.

Definition write_iconset (base_png : Image) (iconset_dir : Path) : IO unit :=
  present ← path_exists iconset_dir;
  (if present : bool then shutil_rmtree iconset_dir else mret ());;
  path_mkdir iconset_dir;;
  for_each (write_icon base_png iconset_dir) sizes.

Definition iconutil_argv (iconset_dir icns_path : Path) : list string :=
  ["iconutil"; "-c"; "icns"; str iconset_dir; "-o"; str icns_path].

Definition build_icns (iconutil : Program) (iconset_dir icns_path : Path) : IO unit :=
  path_mkdir (parent icns_path);;
  subprocess_run iconutil (iconutil_argv iconset_dir icns_path).

(** The parsed command line. *)
Record Args : Type := mkArgs {
  assets_dir : Path;
  base_size : Z;
  supersample : Z;
}.

Definition base_png_path (args : Args) : Path := joinpath (assets_dir args) "oxidate.png".
Definition iconset_dir (args : Args) : Path := joinpath (assets_dir args) "oxidate.iconset".
Definition icns_path (args : Args) : Path := joinpath (assets_dir args) "oxidate.icns".

(** [main], with the renderer it calls as a parameter. *)
Definition main_with (renderer : Z -> Z -> result Image) (iconutil : Program) (args : Args) : IO unit :=
  base ← pure (renderer (base_size args) (Z.max 1 (supersample args)));
  write_png base (base_png_path args);;
  write_iconset base (iconset_dir args);;
  build_icns iconutil (iconset_dir args) (icns_path args);;
  print ("wrote " +:+ str (base_png_path args));;
  print ("wrote " +:+ str (icns_path args)).

Definition main (iconutil : Program) (args : Args) : IO unit :=
  main_with render_icon iconutil args.

(** The exit status of the script: an uncaught exception ends it with 1. *)
Definition exit_status (iconutil : Program) (args : Args) (w : World) : Z * World :=
  match main iconutil args w with
  | (Ok _, w') => (0%Z, w')
  | (Raise _, w') => (1%Z, w')
  end.

End gen_icon.

(* ================================================================== *)
(** * Vocabulary of the statements *)

Module Spec.
Import Float64 PIL FS gen_icon.

Definition byte (v : Z) : Prop := (0 <= v <= 255)%Z.

(** A colour whose four channels are bytes. *)
Definition color_ok (c : Color) : Prop :=
  let '(r, g, b, a) := c in byte r /\ byte g /\ byte b /\ byte a.

(** The interpolation as the specification writes it,
    [int(top + (bottom - top) * y / (height - 1))], in exact arithmetic. *)
Definition interp_exact (top bottom y height : Z) : Z :=
  ((top * (height - 1) + (bottom - top) * y) ÷ (height - 1))%Z.

Definition interp_exact_pixel (top bottom : Color) (y height : Z) : Color :=
  let '(t0, t1, t2, t3) := top in
  let '(b0, b1, b2, b3) := bottom in
  (interp_exact t0 b0 y height, interp_exact t1 b1 y height,
   interp_exact t2 b2 y height, interp_exact t3 b3 y height).

(** Every channel of [px] lies between the channels of [top] and [bottom]. *)
Definition pixel_between (top bottom px : Color) : Prop :=
  let '(t0, t1, t2, t3) := top in
  let '(b0, b1, b2, b3) := bottom in
  let '(p0, p1, p2, p3) := px in
  (Z.min t0 b0 <= p0 <= Z.max t0 b0)%Z /\ (Z.min t1 b1 <= p1 <= Z.max t1 b1)%Z
  /\ (Z.min t2 b2 <= p2 <= Z.max t2 b2)%Z /\ (Z.min t3 b3 <= p3 <= Z.max t3 b3)%Z.

(** Every channel of [p] is within one unit of the same channel of [q]. *)
Definition pixel_near (p q : Color) : Prop :=
  let '(p0, p1, p2, p3) := p in
  let '(q0, q1, q2, q3) := q in
  (Z.abs (p0 - q0) <= 1)%Z /\ (Z.abs (p1 - q1) <= 1)%Z
  /\ (Z.abs (p2 - q2) <= 1)%Z /\ (Z.abs (p3 - q3) <= 1)%Z.

(** The ring mask of [render_icon] at working size [ss]: the outer disc
    filled, the disc of radius [r_inner ss] cleared, the result blurred. *)
Definition ring_mask (ss supersample : Z) : Image :=
  GaussianBlur
    (Ellipse
       (Ellipse (Blank L ss ss (Gray 0))
          (disc (int_div ss 2) (int_div ss 2) (r_outer ss)) (Gray 255))
       (disc (int_div ss 2) (int_div ss 2) (r_inner ss)) (Gray 0))
    (mul (lit (12 # 10)) (of_int supersample)).

(** The working image of [render_icon] once the ring has been composited
    and the inner disc of radius [inner_r ss] drawn, for a gradient [grad]. *)
Definition ring_and_disc (ss supersample : Z) (grad : Image) : Image :=
  Ellipse
    (AlphaComposite (Blank RGBA ss ss (Rgba BG))
       (Composite grad (Blank RGBA ss ss (Rgba (0, 0, 0, 0)%Z)) (ring_mask ss supersample)))
    (disc (int_div ss 2) (int_div ss 2) (inner_r ss)) (Rgba INNER).

(** One exported icon: the base image resampled to [px] by [px] with the
    Lanczos filter, as a PNG file. *)
Definition icon (base_png : Image) (px : Z) : node :=
  File (PNG (Resized base_png px px LANCZOS)).

(** The iconset directory as the specification lists it. *)
Definition iconset_listing (base_png : Image) : Listing :=
  list_to_map
    [ ("icon_16x16.png", icon base_png 16);
      ("icon_16x16@2x.png", icon base_png 32);
      ("icon_32x32.png", icon base_png 32);
      ("icon_32x32@2x.png", icon base_png 64);
      ("icon_128x128.png", icon base_png 128);
      ("icon_128x128@2x.png", icon base_png 256);
      ("icon_256x256.png", icon base_png 256);
      ("icon_256x256@2x.png", icon base_png 512);
      ("icon_512x512.png", icon base_png 512);
      ("icon_512x512@2x.png", icon base_png 1024) ]%Z.

(** The iconset directory can be (re)built at [d]: it is not the working
    directory itself and no regular file stands in the way. *)
Definition creatable (d : Path) (fs : Listing) : Prop :=
  d <> [] /\ blocked d fs = false.

(** A directory listing that holds regular files only. *)
Definition only_files (e : Listing) : Prop :=
  forall k v, e !! k = Some v -> exists c, v = File c.

(** The listing after one more icon of the table has been saved. *)
Definition put_icon (base_png : Image) (e : Listing) (entry : string * Z) : Listing :=
  <[entry.1 := icon base_png entry.2]> e.

(** [around a n fs fs']: the listing of [a] is the same in [fs'] as in [fs],
    except possibly at the entry [n]. *)
Definition around (a : Path) (n : string) (fs fs' : Listing) : Prop :=
  forall e, stat a fs = Some (Dir e) ->
    exists e', stat a fs' = Some (Dir e') /\ forall m, m <> n -> e' !! m = e !! m.

End Spec.

(* ================================================================== *)
(** * Sample inputs *)

Module Samples.
Import PIL FS Env gen_icon.

(** Nothing on disk, nothing printed, nothing started. *)
Definition fresh : World := mkWorld ∅ [] [].


(** A regular file where the assets directory should be. *)
Definition clobbered : World :=
  mkWorld {[ "assets" := File (Blob "not a directory") ]} [] [].

(** The utility is not installed. *)
Definition iconutil_missing : Program := fun _ _ => None.
(** The utility runs and reports failure. *)
Definition iconutil_fails : Program := fun _ fs => Some (1%Z, fs).
(** The utility runs, writes nothing and reports success. *)
Definition iconutil_idle : Program := fun _ fs => Some (0%Z, fs).

Definition tile : Image := Blank RGBA 8 8 (Rgba BG).
Definition assets : Path := ["assets"].

End Samples.

(* ================================================================== *)
(** * Facts about the float model *)

Module Float64Facts.
Import Float64.
#[local] Open Scope Q_scope.

Lemma pow2_pos e : 0 < 2 ^ e.
Proof. apply Qpower_0_lt. reflexivity. Qed.

Lemma pow2_add a b : 2 ^ (a + b) == 2 ^ a * 2 ^ b.
Proof. apply Qpower_plus. discriminate. Qed.

Lemma pow2_succ a : 2 ^ (a + 1) == 2 * 2 ^ a.
Proof. rewrite pow2_add. change (2 ^ 1) with 2. ring. Qed.

Lemma pow2_le a b : (a <= b)%Z -> 2 ^ a <= 2 ^ b.
Proof. intros. apply Qpower_le_compat_l; [assumption | discriminate]. Qed.

Lemma pow2_lt a b : (a < b)%Z -> 2 ^ a < 2 ^ b.
Proof. intros. apply Qpower_lt_compat_l; [assumption | reflexivity]. Qed.

Lemma pow2_Z n : (0 <= n)%Z -> inject_Z (2 ^ n) == 2 ^ n.
Proof. intros. apply (Zpower_Qpower 2 n). assumption. Qed.

Lemma pow2_lt_inv a b : 2 ^ a < 2 ^ b -> (a < b)%Z.
Proof.
  intros H. destruct (Z_lt_le_dec a b) as [|Hle]; [assumption|].
  apply pow2_le in Hle. lra.
Qed.

Lemma ilog2_spec q : 0 < q -> 2 ^ ilog2 q <= q < 2 ^ (ilog2 q + 1).
Proof.
  intros Hq. unfold ilog2.
  set (a := Qnum q). set (d := Zpos (Qden q)).
  assert (Ha : (0 < a)%Z) by (destruct q as [n p]; unfold Qlt in Hq; simpl in *; subst a; simpl; lia).
  assert (Hd : (0 < d)%Z) by (subst d; lia).
  assert (Hqd : q * inject_Z d == inject_Z a).
  { subst a d. destruct q as [n p]. unfold Qeq, Qmult, inject_Z. simpl. lia. }
  destruct (Z.log2_spec a Ha) as [La Ua]. destruct (Z.log2_spec d Hd) as [Ld Ud].
  pose proof (Z.log2_nonneg a) as Na. pose proof (Z.log2_nonneg d) as Nd.
  set (la := Z.log2 a) in *. set (ld := Z.log2 d) in *.
  assert (LaQ : 2 ^ la <= inject_Z a) by (rewrite <- pow2_Z by lia; rewrite <- Zle_Qle; lia).
  assert (UaQ : inject_Z a < 2 * 2 ^ la).
  { rewrite <- pow2_succ, <- pow2_Z by lia. rewrite <- Zlt_Qlt. replace (la + 1)%Z with (Z.succ la) by lia. lia. }
  assert (LdQ : 2 ^ ld <= inject_Z d) by (rewrite <- pow2_Z by lia; rewrite <- Zle_Qle; lia).
  assert (UdQ : inject_Z d < 2 * 2 ^ ld).
  { rewrite <- pow2_succ, <- pow2_Z by lia. rewrite <- Zlt_Qlt. replace (ld + 1)%Z with (Z.succ ld) by lia. lia. }
  assert (Hla : 2 ^ la == 2 ^ (la - ld) * 2 ^ ld).
  { rewrite <- pow2_add. replace (la - ld + ld)%Z with la by lia. reflexivity. }
  pose proof (pow2_pos (la - ld)) as Pk. pose proof (pow2_pos ld) as Pld.
  assert (Hlow : 2 ^ (la - ld - 1) <= q).
  { assert (E : 2 ^ (la - ld) == 2 * 2 ^ (la - ld - 1)).
    { rewrite <- pow2_succ. replace (la - ld - 1 + 1)%Z with (la - ld)%Z by lia. reflexivity. }
    pose proof (pow2_pos (la - ld - 1)).
    destruct (Qlt_le_dec q (2 ^ (la - ld - 1))) as [C|]; [exfalso|assumption].
    assert (q * inject_Z d < 2 ^ (la - ld - 1) * (2 * 2 ^ ld)) by nra.
    nra. }
  assert (Hup : q < 2 ^ (la - ld + 1)).
  { rewrite pow2_succ.
    destruct (Qlt_le_dec q (2 * 2 ^ (la - ld))) as [|C]; [assumption|exfalso].
    assert (2 * 2 ^ (la - ld) * 2 ^ ld <= q * inject_Z d) by nra.
    nra. }
  destruct (Qle_bool (2 ^ (la - ld)) q) eqn:T.
  - apply Qle_bool_iff in T. split; assumption.
  - assert (~ 2 ^ (la - ld) <= q) by (rewrite <- Qle_bool_iff; congruence).
    split; [assumption|]. replace (la - ld - 1 + 1)%Z with (la - ld)%Z by lia. lra.
Qed.

Lemma ilog2_unique q k : 2 ^ k <= q < 2 ^ (k + 1) -> ilog2 q = k.
Proof.
  intros [L U]. assert (Hq : 0 < q) by (pose proof (pow2_pos k); lra).
  destruct (ilog2_spec q Hq) as [L' U'].
  assert (k < ilog2 q + 1)%Z by (apply pow2_lt_inv; lra).
  assert (ilog2 q < k + 1)%Z by (apply pow2_lt_inv; lra).
  lia.
Qed.

Lemma ilog2_mono p q : 0 < p -> p <= q -> (ilog2 p <= ilog2 q)%Z.
Proof.
  intros Hp Hpq. destruct (ilog2_spec p Hp). destruct (ilog2_spec q) as [? ?]; [lra|].
  assert (ilog2 p < ilog2 q + 1)%Z by (apply pow2_lt_inv; lra). lia.
Qed.


#[global] Instance rneQ_proper : Proper (Qeq ==> eq) rneQ.
Proof.
  intros p q E. unfold rneQ. rewrite (Qfloor_comp _ _ E).
  assert (E' : p - inject_Z (Qfloor q) == q - inject_Z (Qfloor q)) by (rewrite E; reflexivity).
  rewrite (Qcompare_comp _ _ E' _ _ (Qeq_refl (1#2))). reflexivity.
Qed.

Lemma rneQ_bounds s : (Qfloor s <= rneQ s <= Qfloor s + 1)%Z.
Proof.
  unfold rneQ. destruct (Qcompare (s - inject_Z (Qfloor s)) (1 # 2)); [destruct (Z.even _)| |]; lia.
Qed.

Lemma rneQ_Z z : rneQ (inject_Z z) = z.
Proof.
  unfold rneQ. rewrite Qfloor_Z.
  assert (H : inject_Z z - inject_Z z < 1 # 2) by lra.
  rewrite Qlt_alt in H. rewrite H. reflexivity.
Qed.

Lemma Qfloor_frac s : 0 <= s - inject_Z (Qfloor s) < 1.
Proof.
  pose proof (Qfloor_le s). pose proof (Qlt_floor s) as H1.
  rewrite inject_Z_plus in H1. change (inject_Z 1) with 1 in H1. lra.
Qed.

Lemma rneQ_mono p q : p <= q -> (rneQ p <= rneQ q)%Z.
Proof.
  intros Hpq. pose proof (Qfloor_resp_le _ _ Hpq) as Hf.
  destruct (Z.eq_dec (Qfloor p) (Qfloor q)) as [E|N].
  - unfold rneQ. rewrite E.
    destruct (Qcompare (p - inject_Z (Qfloor q)) (1 # 2)) eqn:Cp;
    destruct (Qcompare (q - inject_Z (Qfloor q)) (1 # 2)) eqn:Cq;
    try (destruct (Z.even (Qfloor q))); try lia; exfalso;
    try rewrite <- Qeq_alt in *; try rewrite <- Qlt_alt in *; try rewrite <- Qgt_alt in *; lra.
  - pose proof (rneQ_bounds p). pose proof (rneQ_bounds q). lia.
Qed.

Lemma expo_ge q : (-1074 <= expo q)%Z.
Proof. unfold expo. lia. Qed.

Lemma scaled_lt q : 0 < q -> q * 2 ^ (- expo q) < 2 ^ 53.
Proof.
  intros Hq. destruct (ilog2_spec q Hq) as [_ U].
  assert (H : 2 ^ (ilog2 q + 1) <= 2 ^ (expo q + 53)) by (apply pow2_le; unfold expo; lia).
  rewrite (pow2_add (expo q) 53) in H.
  assert (E : 2 ^ expo q * 2 ^ (- expo q) == 1).
  { rewrite <- pow2_add. replace (expo q + - expo q)%Z with 0%Z by lia. reflexivity. }
  pose proof (pow2_pos (expo q)). pose proof (pow2_pos (- expo q)).
  assert (q < 2 ^ expo q * 2 ^ 53) by lra.
  assert (q * 2 ^ (- expo q) < 2 ^ expo q * 2 ^ 53 * 2 ^ (- expo q)) by nra.
  nra.
Qed.

Lemma scaled_ge q : 0 < q -> (-1074 < expo q)%Z -> 2 ^ 52 <= q * 2 ^ (- expo q).
Proof.
  intros Hq He. destruct (ilog2_spec q Hq) as [L _].
  assert (Ee : expo q = (ilog2 q - 52)%Z) by (unfold expo in *; lia).
  assert (H : 2 ^ ilog2 q == 2 ^ expo q * 2 ^ 52).
  { rewrite <- pow2_add. rewrite Ee. replace (ilog2 q - 52 + 52)%Z with (ilog2 q) by lia. reflexivity. }
  assert (E : 2 ^ expo q * 2 ^ (- expo q) == 1).
  { rewrite <- pow2_add. replace (expo q + - expo q)%Z with 0%Z by lia. reflexivity. }
  pose proof (pow2_pos (expo q)). pose proof (pow2_pos (- expo q)).
  assert (2 ^ expo q * 2 ^ 52 * 2 ^ (- expo q) <= q * 2 ^ (- expo q)) by nra.
  nra.
Qed.

Lemma round_pos_nonneg q : 0 < q -> 0 <= round_pos q.
Proof.
  intros Hq. unfold round_pos.
  pose proof (pow2_pos (expo q)). pose proof (pow2_pos (- expo q)).
  assert (0 <= q * 2 ^ (- expo q)) by nra.
  assert (H2 : (0 <= rneQ (q * 2 ^ (- expo q)))%Z).
  { rewrite <- (rneQ_Z 0). apply rneQ_mono. assumption. }
  rewrite Zle_Qle in H2. change (inject_Z 0) with 0 in H2.
  apply Qmult_le_0_compat; lra.
Qed.

Lemma round_pos_mono p q : 0 < p -> p <= q -> round_pos p <= round_pos q.
Proof.
  intros Hp Hpq. assert (Hq : 0 < q) by lra.
  assert (He : (expo p <= expo q)%Z) by (pose proof (ilog2_mono p q Hp Hpq); unfold expo; lia).
  unfold round_pos.
  pose proof (pow2_pos (expo p)). pose proof (pow2_pos (- expo p)).
  pose proof (pow2_pos (expo q)). pose proof (pow2_pos (- expo q)).
  destruct (Z.eq_dec (expo p) (expo q)) as [E|N].
  - rewrite E in *. assert (p * 2 ^ (- expo q) <= q * 2 ^ (- expo q)) by nra.
    pose proof (rneQ_mono _ _ H3) as M. rewrite Zle_Qle in M. nra.
  - assert (Hlt : (expo p < expo q)%Z) by lia.
    assert (A : (rneQ (p * 2 ^ (- expo p)) <= 2 ^ 53)%Z).
    { rewrite <- (rneQ_Z (2 ^ 53)). apply rneQ_mono.
      pose proof (scaled_lt p Hp). rewrite pow2_Z by lia. lra. }
    assert (B : (2 ^ 52 <= rneQ (q * 2 ^ (- expo q)))%Z).
    { rewrite <- (rneQ_Z (2 ^ 52)). apply rneQ_mono.
      pose proof (scaled_ge q Hq). pose proof (expo_ge p). rewrite pow2_Z by lia. apply H3. lia. }
    rewrite Zle_Qle in A, B. rewrite pow2_Z in A, B by lia.
    assert (C : 2 ^ 53 * 2 ^ expo p <= 2 ^ 52 * 2 ^ expo q).
    { rewrite <- !pow2_add. apply pow2_le. lia. }
    nra.
Qed.

Lemma ilog2_proper p q : 0 < p -> p == q -> ilog2 p = ilog2 q.
Proof.
  intros Hp E. symmetry. apply ilog2_unique. rewrite <- E. apply ilog2_spec; assumption.
Qed.

Lemma round_pos_proper p q : 0 < p -> p == q -> round_pos p == round_pos q.
Proof.
  intros Hp E. unfold round_pos, expo. rewrite (ilog2_proper p q Hp E).
  rewrite E. reflexivity.
Qed.

Lemma round_ne_pos q : 0 < q -> round_ne q == round_pos q.
Proof.
  intros H. unfold round_ne. rewrite Qgt_alt in H. rewrite H. apply Qred_correct.
Qed.

Lemma round_ne_neg q : q < 0 -> round_ne q == - round_pos (- q).
Proof.
  intros H. unfold round_ne. rewrite Qlt_alt in H. rewrite H. apply Qred_correct.
Qed.

Lemma round_ne_zero q : q == 0 -> round_ne q == 0.
Proof.
  intros H. unfold round_ne. rewrite Qeq_alt in H. rewrite H. reflexivity.
Qed.

#[global] Instance round_ne_proper : Proper (Qeq ==> Qeq) round_ne.
Proof.
  intros p q E. destruct (Q_dec p 0) as [[Hn|Hp]|Hz].
  - rewrite (round_ne_neg p Hn), (round_ne_neg q) by lra.
    apply Qopp_comp. apply round_pos_proper; [lra | rewrite E; reflexivity].
  - rewrite (round_ne_pos p Hp), (round_ne_pos q) by lra.
    apply round_pos_proper; assumption.
  - rewrite (round_ne_zero p Hz), (round_ne_zero q) by lra. reflexivity.
Qed.

Lemma round_ne_opp q : round_ne (- q) == - round_ne q.
Proof.
  destruct (Q_dec q 0) as [[Hn|Hp]|Hz].
  - rewrite (round_ne_neg q Hn), (round_ne_pos (- q)) by lra. ring.
  - rewrite (round_ne_pos q Hp), (round_ne_neg (- q)) by lra.
    apply Qopp_comp. apply round_pos_proper; [lra | ring].
  - rewrite (round_ne_zero q Hz), (round_ne_zero (- q)) by lra. reflexivity.
Qed.

Lemma round_ne_nonneg q : 0 <= q -> 0 <= round_ne q.
Proof.
  intros H. destruct (Qle_lt_or_eq _ _ H) as [Hp|Hz].
  - rewrite (round_ne_pos q Hp). apply round_pos_nonneg; assumption.
  - rewrite (round_ne_zero q) by lra. lra.
Qed.

Lemma round_ne_nonpos q : q <= 0 -> round_ne q <= 0.
Proof.
  intros H. pose proof (round_ne_nonneg (- q)) as H1. rewrite round_ne_opp in H1. lra.
Qed.

Theorem round_ne_mono p q : p <= q -> round_ne p <= round_ne q.
Proof.
  intros Hpq. destruct (Qlt_le_dec 0 p) as [Hp|Hp].
  - rewrite (round_ne_pos p Hp), (round_ne_pos q) by lra. apply round_pos_mono; assumption.
  - destruct (Qlt_le_dec q 0) as [Hq|Hq].
    + rewrite (round_ne_neg q Hq), (round_ne_neg p) by lra.
      apply Qopp_le_compat. apply round_pos_mono; lra.
    + pose proof (round_ne_nonpos p Hp). pose proof (round_ne_nonneg q Hq). lra.
Qed.

Lemma round_pos_exact q m : 0 < q -> q * 2 ^ (- expo q) == inject_Z m -> round_pos q == q.
Proof.
  intros Hq E. unfold round_pos. rewrite E, rneQ_Z, <- E.
  rewrite <- Qmult_assoc, <- pow2_add.
  replace (- expo q + expo q)%Z with 0%Z by lia. change (2 ^ 0) with 1. ring.
Qed.

Lemma round_pos_int z : (0 < z < 2 ^ 53)%Z -> round_pos (inject_Z z) == inject_Z z.
Proof.
  intros [Hz Hu]. assert (Hq : 0 < inject_Z z) by (change 0 with (inject_Z 0); rewrite <- Zlt_Qlt; lia).
  destruct (ilog2_spec _ Hq) as [L _].
  assert (Hl : (ilog2 (inject_Z z) < 53)%Z).
  { apply pow2_lt_inv. rewrite Zlt_Qlt in Hu. rewrite pow2_Z in Hu by lia. lra. }
  assert (He : (expo (inject_Z z) <= 0)%Z) by (unfold expo; lia).
  apply (round_pos_exact _ (z * 2 ^ (- expo (inject_Z z)))); [assumption|].
  rewrite inject_Z_mult, pow2_Z by lia. reflexivity.
Qed.

Theorem round_ne_int z : (Z.abs z < 2 ^ 53)%Z -> round_ne (inject_Z z) == inject_Z z.
Proof.
  intros Hz. destruct (Z.lt_trichotomy z 0) as [Hn|[E|Hp]].
  - assert (Hq : inject_Z z < 0) by (change 0 with (inject_Z 0); rewrite <- Zlt_Qlt; lia).
    rewrite (round_ne_neg _ Hq). rewrite <- inject_Z_opp.
    rewrite round_pos_int by lia. rewrite inject_Z_opp. ring.
  - subst z. reflexivity.
  - assert (Hq : 0 < inject_Z z) by (change 0 with (inject_Z 0); rewrite <- Zlt_Qlt; lia).
    rewrite (round_ne_pos _ Hq). apply round_pos_int. lia.
Qed.

#[global] Instance trunc_proper : Proper (Qeq ==> eq) trunc.
Proof.
  intros p q E. unfold trunc.
  assert (B : Qle_bool 0 p = Qle_bool 0 q).
  { destruct (Qle_bool 0 p) eqn:A; destruct (Qle_bool 0 q) eqn:B; try reflexivity.
    - apply Qle_bool_iff in A. rewrite E in A. apply Qle_bool_iff in A. congruence.
    - apply Qle_bool_iff in B. rewrite <- E in B. apply Qle_bool_iff in B. congruence. }
  rewrite B. unfold Qceiling. rewrite (Qfloor_comp _ _ E), (Qfloor_comp (- p) (- q)) by (rewrite E; reflexivity).
  reflexivity.
Qed.

Lemma trunc_Z z : trunc (inject_Z z) = z.
Proof. unfold trunc. rewrite Qfloor_Z, Qceiling_Z. destruct (Qle_bool 0 (inject_Z z)); reflexivity. Qed.

Lemma trunc_nonneg q : 0 <= q -> trunc q = Qfloor q.
Proof. intros H. unfold trunc. apply Qle_bool_iff in H. rewrite H. reflexivity. Qed.

Lemma trunc_mono p q : p <= q -> (trunc p <= trunc q)%Z.
Proof.
  intros Hpq. unfold trunc.
  destruct (Qle_bool 0 p) eqn:A; destruct (Qle_bool 0 q) eqn:B.
  - apply Qfloor_resp_le; assumption.
  - apply Qle_bool_iff in A. assert (~ 0 <= q) by (rewrite <- Qle_bool_iff; congruence). lra.
  - apply Qle_bool_iff in B. assert (Hn : ~ 0 <= p) by (rewrite <- Qle_bool_iff; congruence).
    assert (Qceiling p <= 0)%Z.
    { rewrite <- (Qceiling_Z 0). apply Qceiling_resp_le. change (inject_Z 0) with 0. lra. }
    assert (0 <= Qfloor q)%Z.
    { rewrite <- (Qfloor_Z 0). apply Qfloor_resp_le. change (inject_Z 0) with 0. lra. }
    lia.
  - apply Qceiling_resp_le; assumption.
Qed.

Lemma trunc_floor_bounds q z : inject_Z z <= q -> q < inject_Z z + 1 -> Qfloor q = z.
Proof.
  intros L U. pose proof (Qfloor_le q) as A. pose proof (Qlt_floor q) as B.
  rewrite inject_Z_plus in B. change (inject_Z 1) with 1 in B.
  assert (z < Qfloor q + 1)%Z by (rewrite Zlt_Qlt, inject_Z_plus; change (inject_Z 1) with 1; lra).
  assert (Qfloor q < z + 1)%Z by (rewrite Zlt_Qlt, inject_Z_plus; change (inject_Z 1) with 1; lra).
  lia.
Qed.

Lemma trunc_ge z q : inject_Z z <= q -> (z <= trunc q)%Z.
Proof. intros H. apply trunc_mono in H. rewrite trunc_Z in H. exact H. Qed.

Lemma trunc_le z q : q <= inject_Z z -> (trunc q <= z)%Z.
Proof. intros H. apply trunc_mono in H. rewrite trunc_Z in H. exact H. Qed.

(** ** Rounding error *)

Lemma rneQ_err s : - (1 # 2) <= inject_Z (rneQ s) - s <= 1 # 2.
Proof.
  unfold rneQ. pose proof (Qfloor_frac s) as [F0 F1].
  destruct (Qcompare (s - inject_Z (Qfloor s)) (1 # 2)) eqn:C.
  - rewrite <- Qeq_alt in C. destruct (Z.even (Qfloor s)).
    + lra.
    + rewrite inject_Z_plus. change (inject_Z 1) with 1. lra.
  - rewrite <- Qlt_alt in C. lra.
  - rewrite <- Qgt_alt in C. rewrite inject_Z_plus. change (inject_Z 1) with 1. lra.
Qed.

Lemma expo_le q k : 0 < q -> q <= 2 ^ k -> (-1074 <= k - 52)%Z -> (expo q <= k - 52)%Z.
Proof.
  intros Hq Hk Hmin. destruct (ilog2_spec q Hq) as [L _].
  assert (ilog2 q < k + 1)%Z.
  { apply pow2_lt_inv. assert (2 ^ k < 2 ^ (k + 1)) by (apply pow2_lt; lia). lra. }
  unfold expo. lia.
Qed.

Lemma round_pos_err q k :
  0 < q -> q <= 2 ^ k -> (-1074 <= k - 52)%Z ->
  - 2 ^ (k - 53) <= round_pos q - q <= 2 ^ (k - 53).
Proof.
  intros Hq Hk Hmin. pose proof (expo_le q k Hq Hk Hmin) as He.
  pose proof (rneQ_err (q * 2 ^ (- expo q))) as [E1 E2].
  unfold round_pos.
  set (m := inject_Z (rneQ (q * 2 ^ (- expo q)))) in *.
  assert (I : 2 ^ (- expo q) * 2 ^ expo q == 1).
  { rewrite <- pow2_add. replace (- expo q + expo q)%Z with 0%Z by lia. reflexivity. }
  assert (Hh : 2 ^ expo q == 2 * 2 ^ (expo q - 1)).
  { rewrite <- pow2_succ. replace (expo q - 1 + 1)%Z with (expo q) by lia. reflexivity. }
  assert (Hle : 2 ^ (expo q - 1) <= 2 ^ (k - 53)) by (apply pow2_le; lia).
  pose proof (pow2_pos (expo q)) as P. pose proof (pow2_pos (expo q - 1)) as P'.
  assert (Eq : m * 2 ^ expo q - q == (m - q * 2 ^ (- expo q)) * 2 ^ expo q).
  { transitivity (m * 2 ^ expo q - q * (2 ^ (- expo q) * 2 ^ expo q)); [rewrite I|]; ring. }
  rewrite Eq. split; nra.
Qed.

Theorem round_ne_err q k :
  Qabs q <= 2 ^ k -> (-1074 <= k - 52)%Z ->
  Qabs (round_ne q - q) <= 2 ^ (k - 53).
Proof.
  intros Hk Hmin. apply Qabs_Qle_condition.
  destruct (Q_dec q 0) as [[Hn|Hp]|Hz].
  - rewrite (round_ne_neg q Hn).
    assert (Hq : - q <= 2 ^ k) by (rewrite <- (Qabs_neg q) by lra; assumption).
    pose proof (round_pos_err (- q) k ltac:(lra) Hq Hmin) as H. lra.
  - rewrite (round_ne_pos q Hp).
    assert (Hq : q <= 2 ^ k) by (rewrite <- (Qabs_pos q) by lra; assumption).
    pose proof (round_pos_err q k Hp Hq Hmin) as H. lra.
  - rewrite (round_ne_zero q Hz). pose proof (pow2_pos (k - 53)). lra.
Qed.

End Float64Facts.

(** ** The model against the machine

    On the literals of the program and on sample operations the model
    computes the very doubles that binary64 hardware arithmetic gives. *)

Module Float64Check.
Import Float64 Hardware.

Example literals_agree :
  value 0.41 = Some (lit (41 # 100)) /\ value 0.295 = Some (lit (295 # 1000))
  /\ value 0.01 = Some (lit (1 # 100)) /\ value 0.05 = Some (lit (5 # 100))
  /\ value 0.23 = Some (lit (23 # 100)) /\ value 0.21 = Some (lit (21 # 100))
  /\ value 1.2 = Some (lit (12 # 10)) /\ value 0.012 = Some (lit (12 # 1000)).
Proof. vm_compute. repeat split. Qed.

Example radii_agree :
  value (0.41 * i2f 64) = Some (mul (lit (41 # 100)) (of_int 64))
  /\ value (0.295 * i2f 64) = Some (mul (lit (295 # 1000)) (of_int 64))
  /\ value (0.01 * i2f 64) = Some (mul (lit (1 # 100)) (of_int 64))
  /\ value (0.295 * i2f 4096) = Some (mul (lit (295 # 1000)) (of_int 4096))
  /\ value (0.01 * i2f 100) = Some (mul (lit (1 # 100)) (of_int 100))
  /\ value (0.01 * i2f 99) = Some (mul (lit (1 # 100)) (of_int 99))
  /\ value (i2f 4097 / i2f 2 - i2f 1208) = Some (sub (int_div 4097 2) (of_int 1208)).
Proof. vm_compute. repeat split. Qed.

Example gradient_agrees :
  value (i2f 1 / i2f 49) = Some (int_div 1 49)
  /\ value (i2f 49 * (i2f 1 / i2f 49)) = Some (mul (of_int 49) (int_div 1 49))
  /\ value (i2f 0 + i2f 49 * (i2f 1 / i2f 49))
     = Some (add (of_int 0) (mul (of_int 49) (int_div 1 49)))
  /\ value (i2f 245 + (- i2f 40) * (i2f 1000 / i2f 4095))
     = Some (add (of_int 245) (mul (of_int (205 - 245)) (int_div 1000 4095))).
Proof. vm_compute. repeat split. Qed.

End Float64Check.

(* ================================================================== *)
(** * Facts about the gradient *)

Module GradientFacts.
Import Float64 Float64Facts PIL gen_icon.
#[local] Open Scope Q_scope.

#[global] Instance add_proper : Proper (Qeq ==> Qeq ==> Qeq) add.
Proof. intros a b E c d F. unfold add. rewrite E, F. reflexivity. Qed.

#[global] Instance sub_proper : Proper (Qeq ==> Qeq ==> Qeq) sub.
Proof. intros a b E c d F. unfold sub. rewrite E, F. reflexivity. Qed.

#[global] Instance mul_proper : Proper (Qeq ==> Qeq ==> Qeq) mul.
Proof. intros a b E c d F. unfold mul. rewrite E, F. reflexivity. Qed.

Lemma of_int_small z : (Z.abs z < 2 ^ 53)%Z -> of_int z == inject_Z z.
Proof. apply round_ne_int. Qed.

Lemma of_int_nonneg z : (0 <= z)%Z -> 0 <= of_int z.
Proof.
  intros H. apply round_ne_nonneg. change 0 with (inject_Z 0). rewrite <- Zle_Qle. exact H.
Qed.

Lemma of_int_mono a b : (a <= b)%Z -> of_int a <= of_int b.
Proof. intros H. apply round_ne_mono. rewrite <- Zle_Qle. exact H. Qed.

Lemma round_ne_1 : round_ne 1 == 1.
Proof. reflexivity. Qed.

Lemma ratio_unit y n : (0 <= y <= n)%Z -> (0 < n)%Z -> 0 <= inject_Z y / inject_Z n <= 1.
Proof.
  intros [Hy Hyn] Hn.
  assert (Pn : 0 < inject_Z n) by (change 0 with (inject_Z 0); rewrite <- Zlt_Qlt; exact Hn).
  rewrite Zle_Qle in Hy, Hyn. change (inject_Z 0) with 0 in Hy. split.
  - apply Qle_shift_div_l; [exact Pn | lra].
  - apply Qle_shift_div_r; [exact Pn | lra].
Qed.

Lemma int_div_unit y n : (0 <= y <= n)%Z -> (0 < n)%Z -> 0 <= int_div y n <= 1.
Proof.
  intros Hy Hn. destruct (ratio_unit y n Hy Hn) as [L U]. unfold int_div. split.
  - apply round_ne_nonneg. exact L.
  - rewrite <- round_ne_1. apply round_ne_mono. exact U.
Qed.

Lemma int_div_0 n : int_div 0 n == 0.
Proof. unfold int_div. apply round_ne_zero. unfold Qdiv. change (inject_Z 0) with 0. ring. Qed.

Lemma int_div_same n : (0 < n)%Z -> int_div n n == 1.
Proof.
  intros Hn. unfold int_div.
  assert (Pn : 0 < inject_Z n) by (change 0 with (inject_Z 0); rewrite <- Zlt_Qlt; exact Hn).
  transitivity (round_ne 1); [|reflexivity].
  apply round_ne_proper. field. lra.
Qed.

Lemma int_div_err y n :
  (0 <= y <= n)%Z -> (0 < n)%Z ->
  Qabs (int_div y n - inject_Z y / inject_Z n) <= 2 ^ (-53).
Proof.
  intros Hy Hn. destruct (ratio_unit y n Hy Hn) as [L U].
  unfold int_div. apply (round_ne_err _ 0); [|lia].
  rewrite Qabs_pos by exact L. exact U.
Qed.

(** ** One channel *)

Lemma chan_T a : (0 <= a <= 255)%Z -> of_int a == inject_Z a.
Proof. intros Ha. apply of_int_small. lia. Qed.

Lemma chan_D a b :
  (0 <= a <= 255)%Z -> (0 <= b <= 255)%Z -> of_int (b - a) == inject_Z b - inject_Z a.
Proof.
  intros Ha Hb. rewrite of_int_small by lia. unfold Z.sub.
  rewrite inject_Z_plus, inject_Z_opp. ring.
Qed.

Lemma chan_byte a : (0 <= a <= 255)%Z -> 0 <= inject_Z a <= 255.
Proof.
  intros [A0 A1]. rewrite Zle_Qle in A0, A1.
  change (inject_Z 0) with 0 in *. change (inject_Z 255) with 255 in *. tauto.
Qed.

Lemma chan_D_fix a b :
  (0 <= a <= 255)%Z -> (0 <= b <= 255)%Z ->
  round_ne (of_int (b - a)) == inject_Z b - inject_Z a.
Proof.
  intros Ha Hb. rewrite <- (chan_D a b Ha Hb).
  rewrite of_int_small by lia. apply round_ne_int. lia.
Qed.

(** The product stays on the segment from [0] to [b - a]. *)
Lemma chan_mul_up a b t :
  (0 <= a <= 255)%Z -> (0 <= b <= 255)%Z -> 0 <= t <= 1 -> (a <= b)%Z ->
  0 <= mul (of_int (b - a)) t <= inject_Z b - inject_Z a.
Proof.
  intros Ha Hb [T0 T1] Hab. rewrite Zle_Qle in Hab.
  pose proof (chan_D a b Ha Hb) as ED. pose proof (chan_D_fix a b Ha Hb) as RD.
  unfold mul. split.
  - apply round_ne_nonneg. rewrite ED. nra.
  - rewrite <- RD. apply round_ne_mono. rewrite ED. nra.
Qed.

Lemma chan_mul_down a b t :
  (0 <= a <= 255)%Z -> (0 <= b <= 255)%Z -> 0 <= t <= 1 -> (b <= a)%Z ->
  inject_Z b - inject_Z a <= mul (of_int (b - a)) t <= 0.
Proof.
  intros Ha Hb [T0 T1] Hab. rewrite Zle_Qle in Hab.
  pose proof (chan_D a b Ha Hb) as ED. pose proof (chan_D_fix a b Ha Hb) as RD.
  unfold mul. split.
  - rewrite <- RD. apply round_ne_mono. rewrite ED. nra.
  - apply round_ne_nonpos. rewrite ED. nra.
Qed.

Lemma chan_sum_up a b t :
  (0 <= a <= 255)%Z -> (0 <= b <= 255)%Z -> 0 <= t <= 1 -> (a <= b)%Z ->
  inject_Z a <= add (of_int a) (mul (of_int (b - a)) t) <= inject_Z b.
Proof.
  intros Ha Hb Ht Hab. pose proof (chan_T a Ha) as ET.
  pose proof (chan_mul_up a b t Ha Hb Ht Hab) as [L U].
  assert (RA : round_ne (inject_Z a) == inject_Z a) by (apply round_ne_int; lia).
  assert (RB : round_ne (inject_Z b) == inject_Z b) by (apply round_ne_int; lia).
  unfold add. split.
  - rewrite <- RA. apply round_ne_mono. rewrite ET. lra.
  - rewrite <- RB. apply round_ne_mono. rewrite ET. lra.
Qed.

Lemma chan_sum_down a b t :
  (0 <= a <= 255)%Z -> (0 <= b <= 255)%Z -> 0 <= t <= 1 -> (b <= a)%Z ->
  inject_Z b <= add (of_int a) (mul (of_int (b - a)) t) <= inject_Z a.
Proof.
  intros Ha Hb Ht Hab. pose proof (chan_T a Ha) as ET.
  pose proof (chan_mul_down a b t Ha Hb Ht Hab) as [L U].
  assert (RA : round_ne (inject_Z a) == inject_Z a) by (apply round_ne_int; lia).
  assert (RB : round_ne (inject_Z b) == inject_Z b) by (apply round_ne_int; lia).
  unfold add. split.
  - rewrite <- RB. apply round_ne_mono. rewrite ET. lra.
  - rewrite <- RA. apply round_ne_mono. rewrite ET. lra.
Qed.

Lemma channel_range a b t :
  (0 <= a <= 255)%Z -> (0 <= b <= 255)%Z -> 0 <= t <= 1 ->
  (Z.min a b <= channel a b t <= Z.max a b)%Z.
Proof.
  intros Ha Hb Ht. unfold channel.
  destruct (Z.le_ge_cases a b) as [Hab|Hab].
  - destruct (chan_sum_up a b t Ha Hb Ht Hab) as [L U]. rewrite Z.min_l, Z.max_r by lia. split.
    + apply trunc_ge. exact L.
    + apply trunc_le. exact U.
  - destruct (chan_sum_down a b t Ha Hb Ht Hab) as [L U]. rewrite Z.min_r, Z.max_l by lia. split.
    + apply trunc_ge. exact L.
    + apply trunc_le. exact U.
Qed.

Lemma channel_byte a b t :
  (0 <= a <= 255)%Z -> (0 <= b <= 255)%Z -> 0 <= t <= 1 ->
  (0 <= channel a b t <= 255)%Z.
Proof. intros Ha Hb Ht. pose proof (channel_range a b t Ha Hb Ht). lia. Qed.

Lemma channel_proper a b t t' : t == t' -> channel a b t = channel a b t'.
Proof. intros E. unfold channel. apply trunc_proper. rewrite E. reflexivity. Qed.

Lemma channel_at_0 a b t :
  (0 <= a <= 255)%Z -> (0 <= b <= 255)%Z -> t == 0 -> channel a b t = a.
Proof.
  intros Ha Hb E. rewrite (channel_proper a b t 0 E). unfold channel.
  transitivity (trunc (inject_Z a)); [|apply trunc_Z]. apply trunc_proper.
  unfold add, mul. rewrite (round_ne_zero (of_int (b - a) * 0)) by ring.
  rewrite Qplus_0_r. unfold of_int.
  rewrite (round_ne_int a) by lia. apply round_ne_int. lia.
Qed.

Lemma channel_at_1 a b t :
  (0 <= a <= 255)%Z -> (0 <= b <= 255)%Z -> t == 1 -> channel a b t = b.
Proof.
  intros Ha Hb E. rewrite (channel_proper a b t 1 E). unfold channel.
  transitivity (trunc (inject_Z b)); [|apply trunc_Z]. apply trunc_proper.
  unfold add, mul. rewrite Qmult_1_r. unfold of_int.
  rewrite (round_ne_int (b - a)) by lia. rewrite (round_ne_int (b - a)) by lia.
  rewrite (round_ne_int a) by lia.
  transitivity (round_ne (inject_Z b)); [|apply round_ne_int; lia].
  apply round_ne_proper. unfold Z.sub. rewrite inject_Z_plus, inject_Z_opp. ring.
Qed.

Lemma Qfloor_near p q :
  - (1 # 2) <= p - q <= 1 # 2 -> (Qfloor q - 1 <= Qfloor p <= Qfloor q + 1)%Z.
Proof.
  intros [L U].
  pose proof (Qfloor_le p) as P0. pose proof (Qlt_floor p) as P1.
  pose proof (Qfloor_le q) as Q0. pose proof (Qlt_floor q) as Q1.
  rewrite inject_Z_plus in P1, Q1. change (inject_Z 1) with 1 in P1, Q1.
  assert (A : (Qfloor q < Qfloor p + 2)%Z).
  { rewrite Zlt_Qlt. rewrite inject_Z_plus. change (inject_Z 2) with 2. lra. }
  assert (B : (Qfloor p < Qfloor q + 2)%Z).
  { rewrite Zlt_Qlt. rewrite inject_Z_plus. change (inject_Z 2) with 2. lra. }
  lia.
Qed.

(** The float interpolation against the exact one. *)
Lemma channel_near_exact a b y n :
  (0 <= a <= 255)%Z -> (0 <= b <= 255)%Z -> (0 <= y <= n)%Z -> (0 < n)%Z ->
  (Z.abs (channel a b (int_div y n) - (a * n + (b - a) * y) / n) <= 1)%Z.
Proof.
  intros Ha Hb Hy Hn.
  pose proof (int_div_unit y n Hy Hn) as Ht.
  pose proof (int_div_err y n Hy Hn) as E1. apply Qabs_Qle_condition in E1.
  set (t := int_div y n) in *. set (r := inject_Z y / inject_Z n) in *.
  pose proof (chan_T a Ha) as ET. pose proof (chan_D a b Ha Hb) as ED.
  pose proof (chan_byte a Ha) as [A0 A1]. pose proof (chan_byte b Hb) as [B0 B1].
  set (T := of_int a) in *. set (D := of_int (b - a)) in *.
  assert (P53 : 2 ^ (-53) <= 1 # 4096) by (vm_compute; discriminate).
  assert (P45 : 2 ^ (8 - 53) <= 1 # 8) by (vm_compute; discriminate).
  assert (P8 : 2 ^ 8 == 256) by reflexivity.
  destruct Ht as [T0 T1].
  assert (HD : -255 <= D <= 255) by lra.
  assert (HDt : Qabs (D * t) <= 2 ^ 8).
  { apply Qabs_Qle_condition. rewrite P8. split; nra. }
  pose proof (round_ne_err (D * t) 8 HDt ltac:(lia)) as E2. apply Qabs_Qle_condition in E2.
  fold (mul D t) in E2.
  assert (HS : 0 <= T + mul D t <= 255).
  { destruct (Z.le_ge_cases a b) as [Hab|Hab].
    - pose proof (chan_mul_up a b t Ha Hb (conj T0 T1) Hab) as [L U]. fold D in L, U. lra.
    - pose proof (chan_mul_down a b t Ha Hb (conj T0 T1) Hab) as [L U]. fold D in L, U. lra. }
  assert (HSa : Qabs (T + mul D t) <= 2 ^ 8).
  { apply Qabs_Qle_condition. rewrite P8. lra. }
  pose proof (round_ne_err (T + mul D t) 8 HSa ltac:(lia)) as E3. apply Qabs_Qle_condition in E3.
  fold (add T (mul D t)) in E3.
  set (x := inject_Z a + (inject_Z b - inject_Z a) * r).
  assert (Hsx : - (1 # 2) <= add T (mul D t) - x <= 1 # 2).
  { assert (Hd : - (1#8) <= D * t - (inject_Z b - inject_Z a) * r <= 1 # 8).
    { rewrite <- ED. split; nra. }
    unfold x. lra. }
  assert (Hs0 : 0 <= add T (mul D t)) by (apply round_ne_nonneg; lra).
  unfold channel. fold T D. rewrite (trunc_nonneg _ Hs0).
  assert (Pn : 0 < inject_Z n) by (change 0 with (inject_Z 0); rewrite <- Zlt_Qlt; exact Hn).
  assert (Hx : x == inject_Z (a * n + (b - a) * y) / inject_Z n).
  { unfold x, r. rewrite inject_Z_plus, !inject_Z_mult. unfold Z.sub.
    rewrite inject_Z_plus, inject_Z_opp. field. lra. }
  rewrite Zdiv_Qdiv, <- (Qfloor_comp _ _ Hx).
  pose proof (Qfloor_near _ _ Hsx). lia.
Qed.

End GradientFacts.

(* ================================================================== *)
(** * Facts about the imaging calls *)

Module PILFacts.
Import Float64 Float64Facts PIL gen_icon Spec GradientFacts.

Lemma foldM_app {A B : Type} (f : A -> B -> result A) (a : A) (l1 l2 : list B) :
  foldM f a (l1 ++ l2) = (a' ← foldM f a l1; foldM f a' l2).
Proof.
  revert a. induction l1 as [|b l1 IH]; intros a; simpl; [reflexivity|].
  destruct (f a b) as [a'|e]; simpl; [apply IH | reflexivity].
Qed.

Lemma clip8_byte v : byte v -> clip8 v = v.
Proof. unfold byte, clip8. lia. Qed.

Lemma Image_new_ok m w h c :
  (0 <= w)%Z -> (0 <= h)%Z -> Image_new m (w, h) c = Ok (Blank m w h c).
Proof.
  intros Hw Hh. unfold Image_new. simpl.
  destruct (Z.ltb_spec w 0); [lia|]. destruct (Z.ltb_spec h 0); [lia|]. reflexivity.
Qed.

Lemma resize_ok im w h r :
  (1 <= w)%Z -> (1 <= h)%Z -> resize im (w, h) r = Ok (Resized im w h r).
Proof.
  intros Hw Hh. unfold resize. simpl.
  destruct (Z.ltb_spec w 1); [lia|]. destruct (Z.ltb_spec h 1); [lia|]. reflexivity.
Qed.

Lemma putpixel_ok im x y c :
  (0 <= x < fst (size im))%Z -> (0 <= y < snd (size im))%Z ->
  putpixel im (x, y) c = Ok (PutPixel im x y (clip_ink c)).
Proof.
  intros Hx Hy. unfold putpixel, in_bounds. simpl.
  destruct (Z.ltb_spec x 0); [lia|]. destruct (Z.ltb_spec y 0); [lia|].
  destruct (Z.leb_spec 0 x); [|lia]. destruct (Z.leb_spec 0 y); [|lia].
  destruct (Z.ltb_spec x (fst (size im))); [|lia].
  destruct (Z.ltb_spec y (snd (size im))); [|lia]. reflexivity.
Qed.

Lemma disc_ordered im cx cy r fill :
  (0 <= r)%Z -> ellipse im (disc cx cy r) fill = Ok (Ellipse im (disc cx cy r) fill).
Proof.
  intros Hr. pose proof (of_int_nonneg r Hr) as HR.
  unfold ellipse, disc.
  assert (X : Qle_bool (sub cx (of_int r)) (add cx (of_int r)) = true).
  { apply Qle_bool_iff. apply round_ne_mono. lra. }
  assert (Y : Qle_bool (sub cy (of_int r)) (add cy (of_int r)) = true).
  { apply Qle_bool_iff. apply round_ne_mono. lra. }
  rewrite X, Y. reflexivity.
Qed.

(** ** The gradient loop *)

Lemma gradient_pixel_ok top bottom t :
  color_ok top -> color_ok bottom -> (0 <= t <= 1)%Q ->
  clip_ink (Rgba (gradient_pixel top bottom t)) = Rgba (gradient_pixel top bottom t).
Proof.
  destruct top as [[[t0 t1] t2] t3], bottom as [[[b0 b1] b2] b3].
  intros (T0 & T1 & T2 & T3) (B0 & B1 & B2 & B3) Ht. simpl.
  rewrite !clip8_byte; [reflexivity| | | |]; apply channel_byte; assumption.
Qed.

Lemma row_ratio height y :
  (1 <= height)%Z -> (Z.of_nat y < height)%Z ->
  (0 <= Z.of_nat y <= Z.max 1 (height - 1))%Z /\ (0 < Z.max 1 (height - 1))%Z.
Proof. lia. Qed.

Lemma gradient_loop height top bottom k :
  color_ok top -> color_ok bottom -> (1 <= height)%Z -> (Z.of_nat k <= height)%Z ->
  exists img,
    foldM (gradient_row height top bottom)
          (Blank RGBA 1 height (Rgba (0, 0, 0, 0)%Z)) (seq 0 k) = Ok img
    /\ size img = (1, height)%Z /\ mode img = RGBA
    /\ forall y, (y < k)%nat ->
         getpixel img 0 (Z.of_nat y)
         = Some (Rgba (gradient_pixel top bottom
                         (int_div (Z.of_nat y) (Z.max 1 (height - 1))))).
Proof.
  intros Htop Hbot Hh. induction k as [|k IH]; intros Hk.
  - eexists. simpl. repeat split. intros y Hy. lia.
  - destruct IH as (img & Hrun & Hsz & Hmd & Hpx); [lia|].
    rewrite seq_S, foldM_app, Hrun. simpl.
    destruct (row_ratio height k Hh ltac:(lia)) as [Hr Hn].
    unfold gradient_row.
    rewrite putpixel_ok by (rewrite Hsz; simpl; lia).
    rewrite gradient_pixel_ok by (try assumption; apply int_div_unit; assumption).
    eexists. split; [reflexivity|]. simpl. repeat split; try assumption.
    intros y Hy. destruct (Z.eqb_spec (Z.of_nat y) (Z.of_nat k)) as [E|N].
    + apply Nat2Z.inj in E. subst y. reflexivity.
    + apply Hpx. lia.
Qed.

Lemma gradient_spec height top bottom :
  color_ok top -> color_ok bottom -> (1 <= height)%Z ->
  exists img,
    _make_vertical_gradient height top bottom = Ok img
    /\ size img = (1, height)%Z /\ mode img = RGBA
    /\ forall y, (0 <= y < height)%Z ->
         getpixel img 0 y
         = Some (Rgba (gradient_pixel top bottom (int_div y (Z.max 1 (height - 1))))).
Proof.
  intros Htop Hbot Hh. unfold _make_vertical_gradient.
  rewrite Image_new_ok by lia. simpl.
  destruct (gradient_loop height top bottom (Z.to_nat height) Htop Hbot Hh ltac:(lia))
    as (img & Hrun & Hsz & Hmd & Hpx).
  exists img. repeat split; try assumption.
  intros y Hy. specialize (Hpx (Z.to_nat y) ltac:(lia)).
  rewrite Z2Nat.id in Hpx by lia. exact Hpx.
Qed.

End PILFacts.

(* ================================================================== *)
(** * Facts about the renderer *)

Module RenderFacts.
Import Float64 Float64Facts PIL gen_icon Spec GradientFacts PILFacts.

Lemma lit_nonneg q : (0 <= q)%Q -> (0 <= lit q)%Q.
Proof. apply round_ne_nonneg. Qed.

Lemma lit_mono p q : (p <= q)%Q -> (lit p <= lit q)%Q.
Proof. apply round_ne_mono. Qed.

(** [int(c * ss)] for a non-negative literal and a non-negative size. *)
Lemma scaled_nonneg c ss :
  (0 <= c)%Q -> (0 <= ss)%Z -> (0 <= trunc (mul (lit c) (of_int ss)))%Z.
Proof.
  intros Hc Hs. apply trunc_ge. change (inject_Z 0) with 0%Q.
  apply round_ne_nonneg. apply Qmult_le_0_compat; [apply lit_nonneg | apply of_int_nonneg]; assumption.
Qed.

Lemma scaled_mono c c' ss :
  (0 <= ss)%Z -> (c <= c')%Q ->
  (trunc (mul (lit c) (of_int ss)) <= trunc (mul (lit c') (of_int ss)))%Z.
Proof.
  intros Hs Hc. apply trunc_mono. apply round_ne_mono.
  pose proof (of_int_nonneg ss Hs). pose proof (lit_mono c c' Hc).
  apply Qmult_le_compat_r; assumption.
Qed.

Lemma r_outer_nonneg ss : (0 <= ss)%Z -> (0 <= r_outer ss)%Z.
Proof. intros H. apply scaled_nonneg; [discriminate | exact H]. Qed.

Lemma r_inner_nonneg ss : (0 <= ss)%Z -> (0 <= r_inner ss)%Z.
Proof. intros H. apply scaled_nonneg; [discriminate | exact H]. Qed.

Lemma hd_r_nonneg ss : (0 <= ss)%Z -> (0 <= hd_r ss)%Z.
Proof. intros H. apply scaled_nonneg; [discriminate | exact H]. Qed.

Lemma inset_nonneg ss : (0 <= ss)%Z -> (0 <= trunc (mul (lit (1 # 100)) (of_int ss)))%Z.
Proof. intros H. apply scaled_nonneg; [discriminate | exact H]. Qed.

Lemma inner_r_nonneg ss : (0 <= ss)%Z -> (0 <= inner_r ss)%Z.
Proof.
  intros H. unfold inner_r, r_inner.
  pose proof (scaled_mono (1 # 100) (295 # 1000) ss H ltac:(discriminate)). lia.
Qed.

Lemma inner_r_le ss : (0 <= ss)%Z -> (inner_r ss <= r_inner ss)%Z.
Proof. intros H. unfold inner_r. pose proof (inset_nonneg ss H). lia. Qed.

(** The inset [int(0.01 * ss)] is at least one pixel from [ss = 100] on... *)
Lemma inset_pos ss : (100 <= ss)%Z -> (1 <= trunc (mul (lit (1 # 100)) (of_int ss)))%Z.
Proof.
  intros H. apply trunc_ge. change (inject_Z 1) with (mul (lit (1 # 100)) (of_int 100)).
  apply round_ne_mono. apply Qmult_le_l; [reflexivity|]. apply of_int_mono. exact H.
Qed.

(** ... and vanishes below. *)
Lemma inset_zero ss : (0 <= ss < 100)%Z -> trunc (mul (lit (1 # 100)) (of_int ss)) = 0%Z.
Proof.
  intros [H0 H1]. pose proof (inset_nonneg ss H0) as L.
  assert (U : (trunc (mul (lit (1 # 100)) (of_int ss)) <= 0)%Z).
  { apply Z.le_trans with (trunc (mul (lit (1 # 100)) (of_int 99))); [|vm_compute; discriminate].
    apply trunc_mono. apply round_ne_mono. apply Qmult_le_l; [reflexivity|].
    apply of_int_mono. lia. }
  lia.
Qed.

Lemma inner_r_lt_iff ss : (0 <= ss)%Z -> (inner_r ss < r_inner ss)%Z <-> (100 <= ss)%Z.
Proof.
  intros H0. unfold inner_r. split.
  - intros Hlt. destruct (Z_lt_le_dec ss 100) as [Hs|Hs]; [|exact Hs].
    rewrite inset_zero in Hlt by lia. lia.
  - intros Hs. pose proof (inset_pos ss Hs). lia.
Qed.

Lemma size_eqb_refl sz : size_eqb sz sz = true.
Proof. unfold size_eqb. rewrite !Z.eqb_refl. reflexivity. Qed.

Lemma composite_ok image1 image2 mask :
  size image1 = size mask -> composite image1 image2 mask = Ok (Composite image1 image2 mask).
Proof. intros E. unfold composite. rewrite E, size_eqb_refl. reflexivity. Qed.

Lemma alpha_composite_ok dst src :
  mode dst = RGBA -> mode src = RGBA -> alpha_composite dst src = Ok (AlphaComposite dst src).
Proof. intros D S. unfold alpha_composite. rewrite D, S. reflexivity. Qed.

Lemma ring_colors_ok :
  color_ok (245, 150, 45, 255)%Z /\ color_ok (205, 120, 35, 255)%Z.
Proof. unfold color_ok, byte. lia. Qed.

(** The renderer succeeds on positive arguments; its result is the working
    image, with the inner disc and the highlight on top, scaled down. *)
Lemma render_icon_ok b s :
  (1 <= b)%Z -> (1 <= s)%Z ->
  exists grad dot,
    render_icon b s
    = Ok (Resized (AlphaComposite (ring_and_disc (b * s) s grad) dot) b b LANCZOS).
Proof.
  intros Hb Hs. assert (Hss : (1 <= b * s)%Z) by nia.
  unfold render_icon, canvas. set (ss := (b * s)%Z) in *.
  destruct ring_colors_ok as [Ctop Cbot].
  destruct (gradient_spec ss _ _ Ctop Cbot Hss) as (g & Hg & Hgs & Hgm & _).
  rewrite !Image_new_ok by lia. cbn [mbind result_bind].
  rewrite (disc_ordered _ _ _ (r_outer ss)) by (apply r_outer_nonneg; lia). cbn [mbind result_bind].
  rewrite (disc_ordered _ _ _ (r_inner ss)) by (apply r_inner_nonneg; lia). cbn [mbind result_bind].
  unfold filter_GaussianBlur. cbn [mbind result_bind].
  rewrite Hg. cbn [mbind result_bind].
  rewrite resize_ok by lia. cbn [mbind result_bind].
  rewrite composite_ok by reflexivity. cbn [mbind result_bind].
  rewrite alpha_composite_ok by reflexivity. cbn [mbind result_bind].
  rewrite (disc_ordered _ _ _ (inner_r ss)) by (apply inner_r_nonneg; lia). cbn [mbind result_bind].
  rewrite (disc_ordered _ _ _ (hd_r ss)) by (apply hd_r_nonneg; lia). cbn [mbind result_bind].
  rewrite alpha_composite_ok by reflexivity. cbn [mbind result_bind].
  rewrite resize_ok by lia.
  eexists _, _. reflexivity.
Qed.

End RenderFacts.

(* ================================================================== *)
(** * Facts about the file system *)

Module FSFacts.
Import PIL FS.

Lemma split_last_snoc (d : Path) (n : string) : split_last (d ++ [n]) = Some (d, n).
Proof.
  induction d as [|m d IH]; [reflexivity|].
  simpl. rewrite IH. destruct (d ++ [n]) eqn:E; [|reflexivity].
  destruct d; discriminate.
Qed.

Lemma split_last_Some (p d : Path) (n : string) :
  split_last p = Some (d, n) -> p = d ++ [n].
Proof.
  revert d. induction p as [|m p IH]; intros d H; [discriminate|].
  simpl in H. destruct p as [|m' p'].
  - injection H as <- <-. reflexivity.
  - destruct (split_last (m' :: p')) as [[d' l]|] eqn:E; [|discriminate].
    injection H as <- <-. rewrite (IH d' eq_refl). reflexivity.
Qed.

Lemma parent_joinpath (d : Path) (n : string) : parent (joinpath d n) = d.
Proof. apply removelast_last. Qed.

(** Looking up below a directory that is already resolved. *)
Lemma stat_app (a q : Path) (fs : Listing) :
  stat (a ++ q) fs =
  match stat a fs with
  | Some (Dir e) => stat q e
  | Some (File c) => match q with [] => Some (File c) | _ => None end
  | None => None
  end.
Proof.
  revert fs. induction a as [|n a IH]; intros fs; [reflexivity|].
  simpl. destruct (fs !! n) as [[c|sub]|]; [| apply IH | reflexivity].
  destruct a; simpl; [|reflexivity]. destruct q; reflexivity.
Qed.

Lemma stat_child (a : Path) (n : string) (e fs : Listing) :
  stat a fs = Some (Dir e) -> stat (joinpath a n) fs = e !! n.
Proof.
  intros H. unfold joinpath. rewrite stat_app, H. simpl.
  destruct (e !! n) as [[c|sub]|]; reflexivity.
Qed.

Lemma at_dir_app (a q : Path) (f : Listing -> result Listing) (fs : Listing) :
  at_dir (a ++ q) f fs = at_dir a (at_dir q f) fs.
Proof.
  revert fs. induction a as [|n a IH]; intros fs; [reflexivity|].
  simpl. destruct (fs !! n) as [[c|sub]|]; try reflexivity. rewrite IH. reflexivity.
Qed.

(** [at_dir] succeeds exactly when the directory exists and the action
    succeeds on its listing, which then becomes the new listing. *)
Lemma at_dir_inv (d : Path) (f : Listing -> result Listing) (fs fs' : Listing) :
  at_dir d f fs = Ok fs' ->
  exists e e', stat d fs = Some (Dir e) /\ f e = Ok e' /\ stat d fs' = Some (Dir e').
Proof.
  revert fs fs'. induction d as [|n d IH]; intros fs fs' H.
  - exists fs, fs'. simpl in *. auto.
  - simpl in H. destruct (fs !! n) as [[c|sub]|] eqn:E; try discriminate.
    destruct (at_dir d f sub) as [sub'|x] eqn:A; [|discriminate].
    simpl in H. injection H as <-.
    destruct (IH _ _ A) as (e & e' & S1 & F & S2).
    exists e, e'. simpl. rewrite E, lookup_insert_eq. auto.
Qed.

Lemma at_dir_Ok (d : Path) (f : Listing -> result Listing) (fs e e' : Listing) :
  stat d fs = Some (Dir e) -> f e = Ok e' ->
  exists fs', at_dir d f fs = Ok fs' /\ stat d fs' = Some (Dir e').
Proof.
  revert fs. induction d as [|n d IH]; intros fs S F.
  - simpl in *. injection S as <-. eauto.
  - simpl in S. simpl. destruct (fs !! n) as [[c|sub]|] eqn:E.
    + destruct d; discriminate.
    + destruct (IH sub S F) as (sub' & A & S'). rewrite A. simpl.
      eexists. split; [reflexivity|]. simpl. rewrite lookup_insert_eq. exact S'.
    + discriminate.
Qed.

Lemma at_dir_Raise (d : Path) (f : Listing -> result Listing) (fs e : Listing) (x : Exn) :
  stat d fs = Some (Dir e) -> f e = Raise x -> at_dir d f fs = Raise x.
Proof.
  revert fs. induction d as [|n d IH]; intros fs S F.
  - simpl in *. injection S as <-. exact F.
  - simpl in S. simpl. destruct (fs !! n) as [[c|sub]|] eqn:E.
    + destruct d; discriminate.
    + rewrite (IH sub S F). reflexivity.
    + discriminate.
Qed.

(** An action below the entry [n] leaves the other entries alone. *)
Lemma at_dir_local (n : string) (r : Path) (f : Listing -> result Listing) (e e' : Listing) :
  at_dir (n :: r) f e = Ok e' ->
  (exists sub, e' !! n = Some (Dir sub)) /\ forall m, m <> n -> e' !! m = e !! m.
Proof.
  simpl. destruct (e !! n) as [[c|sub]|]; try discriminate.
  destruct (at_dir r f sub) as [sub'|x]; [|discriminate]. simpl. intros [= <-]. split.
  - exists sub'. apply lookup_insert_eq.
  - intros m Hm. apply lookup_insert_ne. congruence.
Qed.

(** ** [mkdir] *)

Lemma stat_empty (p : Path) : match stat p ∅ with Some (Dir e) => e | _ => ∅ end = (∅ : Listing).
Proof. destruct p as [|n p]; [reflexivity|]. simpl. rewrite lookup_empty. reflexivity. Qed.

Lemma mkdir_empty (p : Path) : exists e, mkdir p ∅ = Ok e.
Proof.
  induction p as [|n p [e IH]]; [eexists; reflexivity|].
  simpl. rewrite lookup_empty, IH. eexists. reflexivity.
Qed.

(** After a successful [mkdir] the path is a directory: the one that was
    there, or a new, empty one. *)
Lemma mkdir_stat (p : Path) (fs fs' : Listing) :
  mkdir p fs = Ok fs' ->
  stat p fs' = Some (Dir (match stat p fs with Some (Dir e) => e | _ => ∅ end)).
Proof.
  revert fs fs'. induction p as [|n p IH]; intros fs fs' H.
  - simpl in *. injection H as <-. reflexivity.
  - simpl in H. simpl. destruct (fs !! n) as [[c|sub]|] eqn:E.
    + discriminate.
    + destruct (mkdir p sub) as [sub'|x] eqn:M; [|discriminate]. simpl in H.
      injection H as <-. rewrite lookup_insert_eq. apply IH. exact M.
    + destruct (mkdir p ∅) as [sub'|x] eqn:M; [|discriminate]. simpl in H.
      injection H as <-. rewrite lookup_insert_eq.
      rewrite (IH _ _ M). rewrite stat_empty. reflexivity.
Qed.

(** [mkdir] on an existing directory changes nothing. *)
Lemma mkdir_existing (p : Path) (fs e : Listing) :
  stat p fs = Some (Dir e) -> mkdir p fs = Ok fs.
Proof.
  revert fs. induction p as [|n p IH]; intros fs S; [reflexivity|].
  simpl in S. simpl. destruct (fs !! n) as [[c|sub]|] eqn:E.
  - destruct p; discriminate.
  - rewrite (IH sub S). simpl. rewrite insert_id by exact E. reflexivity.
  - discriminate.
Qed.

(** [mkdir] fails only on a regular file in the way. *)
Lemma mkdir_Ok_iff (p : Path) (fs : Listing) :
  (exists fs', mkdir p fs = Ok fs') <-> blocked p fs = false.
Proof.
  revert fs. induction p as [|n p IH]; intros fs.
  - split; [reflexivity | eexists; reflexivity].
  - simpl. destruct (fs !! n) as [[c|sub]|] eqn:E.
    + split; [intros [? ?]; discriminate | discriminate].
    + rewrite <- IH. split.
      * intros [fs' H]. destruct (mkdir p sub) as [sub'|]; [eauto | discriminate].
      * intros [sub' M]. rewrite M. eexists. reflexivity.
    + split; [reflexivity|]. intros _.
      destruct (mkdir_empty p) as [e M]. rewrite M. eexists. reflexivity.
Qed.

Lemma stat_Dir_free (p : Path) (fs e : Listing) :
  stat p fs = Some (Dir e) -> blocked p fs = false.
Proof.
  revert fs. induction p as [|n p IH]; intros fs S; [reflexivity|].
  simpl in *. destruct (fs !! n) as [[c|sub]|]; [|eauto|discriminate].
  destruct p; discriminate.
Qed.

Lemma stat_File_blocked (p : Path) (fs : Listing) (c : Content) :
  stat p fs = Some (File c) -> blocked p fs = true.
Proof.
  revert fs. induction p as [|n p IH]; intros fs S; [discriminate|].
  simpl in *. destruct (fs !! n) as [[c'|sub]|]; [reflexivity | eauto | discriminate].
Qed.

(** Below an existing directory, [mkdir] works inside that directory. *)
Lemma mkdir_app (a q : Path) (fs e : Listing) :
  stat a fs = Some (Dir e) -> mkdir (a ++ q) fs = at_dir a (mkdir q) fs.
Proof.
  revert fs. induction a as [|n a IH]; intros fs S; [reflexivity|].
  simpl in S. simpl. destruct (fs !! n) as [[c|sub]|] eqn:E.
  - destruct a; discriminate.
  - rewrite (IH sub S). reflexivity.
  - discriminate.
Qed.

Lemma mkdir_local (n : string) (r : Path) (e e' : Listing) :
  mkdir (n :: r) e = Ok e' ->
  (exists sub, e' !! n = Some (Dir sub)) /\ forall m, m <> n -> e' !! m = e !! m.
Proof.
  simpl. destruct (e !! n) as [[c|sub]|]; try discriminate.
  - destruct (mkdir r sub) as [sub'|x]; [|discriminate]. simpl. intros [= <-]. split.
    + exists sub'. apply lookup_insert_eq.
    + intros m Hm. apply lookup_insert_ne. congruence.
  - destruct (mkdir r ∅) as [sub'|x]; [|discriminate]. simpl. intros [= <-]. split.
    + exists sub'. apply lookup_insert_eq.
    + intros m Hm. apply lookup_insert_ne. congruence.
Qed.

End FSFacts.

(* ================================================================== *)
(** * Facts about the export and packaging stages *)

Module PipelineFacts.
Import PIL FS Env gen_icon Spec FSFacts PILFacts.

Lemma fs_call_Ok (f : Listing -> result Listing) (w : World) (fs' : Listing) :
  f (files w) = Ok fs' -> fs_call f w = (Ok (), set_files fs' w).
Proof. intros H. unfold fs_call. rewrite H. reflexivity. Qed.

Lemma fs_call_Raise (f : Listing -> result Listing) (w : World) (x : Exn) :
  f (files w) = Raise x -> fs_call f w = (Raise x, w).
Proof. intros H. unfold fs_call. rewrite H. reflexivity. Qed.

Lemma fs_call_inv (f : Listing -> result Listing) (w w' : World) (r : result ()) :
  fs_call f w = (r, w') ->
  stdout w' = stdout w /\ spawned w' = spawned w /\
  match r with
  | Ok _ => f (files w) = Ok (files w')
  | Raise x => f (files w) = Raise x /\ w' = w
  end.
Proof.
  unfold fs_call. destruct (f (files w)) as [fs'|x]; intros [= <- <-]; simpl; auto.
Qed.

(** ** Removing a directory tree *)

Lemma rmtree_dir (par : Path) (n : string) (fs e old : Listing) :
  stat par fs = Some (Dir e) -> e !! n = Some (Dir old) ->
  exists fs', rmtree (joinpath par n) fs = (Ok (), fs')
              /\ stat par fs' = Some (Dir (delete n e)).
Proof.
  intros S E. unfold rmtree, joinpath. rewrite split_last_snoc.
  destruct (at_dir_Ok par (remove_dir n) fs e (delete n e) S) as (fs' & A & S').
  { unfold remove_dir. rewrite E. reflexivity. }
  rewrite A. eauto.
Qed.

Lemma rmtree_inv (p : Path) (fs fs' : Listing) :
  rmtree p fs = (Ok (), fs') ->
  exists par n e old,
    p = joinpath par n /\ stat par fs = Some (Dir e) /\ e !! n = Some (Dir old)
    /\ stat par fs' = Some (Dir (delete n e)).
Proof.
  unfold rmtree. destruct (split_last p) as [[par n]|] eqn:E; [|discriminate].
  apply split_last_Some in E. subst p.
  destruct (at_dir par (remove_dir n) fs) as [fs1|x] eqn:A; [|discriminate].
  intros [= <-]. destruct (at_dir_inv _ _ _ _ A) as (e & e' & S & R & S').
  unfold remove_dir in R. destruct (e !! n) as [[c|old]|] eqn:L; try discriminate.
  injection R as <-. exists par, n, e, old. auto.
Qed.

Lemma rmtree_gone (p : Path) (fs fs' : Listing) :
  rmtree p fs = (Ok (), fs') -> stat p fs' = None.
Proof.
  intros H. destruct (rmtree_inv p fs fs' H) as (par & n & e & old & -> & _ & _ & S).
  rewrite (stat_child par n _ fs' S). apply lookup_delete_eq.
Qed.

(** ** Writing one icon *)

Lemma write_file_snoc (d : Path) (name : string) (c : Content) (fs : Listing) :
  write_file (joinpath d name) c fs = at_dir d (put_file name c) fs.
Proof. unfold write_file, joinpath. rewrite split_last_snoc. reflexivity. Qed.

Lemma only_files_empty : only_files ∅.
Proof. intros k v H. rewrite lookup_empty in H. discriminate. Qed.

Lemma only_files_put base_png e entry : only_files e -> only_files (put_icon base_png e entry).
Proof.
  intros H k v. unfold put_icon. destruct (decide (entry.1 = k)) as [<-|N].
  - rewrite lookup_insert_eq. intros [= <-]. eauto.
  - rewrite lookup_insert_ne by exact N. apply H.
Qed.

Lemma write_icon_ok base_png d name px (w : World) (e : Listing) :
  (1 <= px)%Z -> stat d (files w) = Some (Dir e) -> only_files e ->
  exists w', write_icon base_png d (name, px) w = (Ok (), w')
    /\ stat d (files w') = Some (Dir (put_icon base_png e (name, px)))
    /\ stdout w' = stdout w /\ spawned w' = spawned w.
Proof.
  intros Hpx S F. unfold write_icon, mbind, IO_bind, pure, save.
  rewrite resize_ok by exact Hpx.
  destruct (at_dir_Ok d (put_file name (PNG (Resized base_png px px LANCZOS)))
              (files w) e (put_icon base_png e (name, px)) S) as (fs' & A & S').
  { unfold put_file, put_icon, icon. simpl. destruct (e !! name) as [[c|sub]|] eqn:L; try reflexivity.
    destruct (F _ _ L) as [c ?]. discriminate. }
  rewrite <- write_file_snoc in A.
  rewrite (fs_call_Ok _ _ _ A). eexists. split; [reflexivity|]. simpl. auto.
Qed.

Lemma for_each_icons base_png d (l : list (string * Z)) :
  Forall (fun entry => 1 <= entry.2)%Z l ->
  forall (w : World) (e : Listing),
    stat d (files w) = Some (Dir e) -> only_files e ->
    exists w', for_each (write_icon base_png d) l w = (Ok (), w')
      /\ stat d (files w') = Some (Dir (foldl (put_icon base_png) e l))
      /\ stdout w' = stdout w /\ spawned w' = spawned w.
Proof.
  induction 1 as [|[name px] l Hpx _ IH]; intros w e S F.
  - exists w. simpl. auto.
  - destruct (write_icon_ok base_png d name px w e Hpx S F) as (w1 & R & S1 & O1 & P1).
    destruct (IH w1 _ S1 (only_files_put base_png e (name, px) F)) as (w' & R' & S' & O' & P').
    exists w'. cbn [for_each]. unfold mbind, IO_bind. rewrite R. rewrite R'.
    repeat split; [exact S' | congruence | congruence].
Qed.

Lemma sizes_positive : Forall (fun entry : string * Z => 1 <= entry.2)%Z sizes.
Proof. unfold sizes. repeat constructor; simpl; lia. Qed.

(** ** Siblings of the directory that is rebuilt *)

Lemma around_refl a n fs : around a n fs fs.
Proof. intros e S. eauto. Qed.

Lemma around_trans a n fs1 fs2 fs3 :
  around a n fs1 fs2 -> around a n fs2 fs3 -> around a n fs1 fs3.
Proof.
  intros H12 H23 e S. destruct (H12 e S) as (e2 & S2 & A2).
  destruct (H23 e2 S2) as (e3 & S3 & A3). exists e3. split; [exact S3|].
  intros m Hm. rewrite A3, A2 by exact Hm. reflexivity.
Qed.

Lemma at_dir_around a n r f fs fs' :
  at_dir (a ++ n :: r) f fs = Ok fs' -> around a n fs fs'.
Proof.
  rewrite at_dir_app. intros H e S.
  destruct (at_dir_inv _ _ _ _ H) as (e0 & e' & S0 & L & S').
  rewrite S in S0. injection S0 as <-.
  exists e'. split; [exact S'|]. apply (at_dir_local n r f e e' L).
Qed.

Lemma mkdir_around a n r fs fs' :
  mkdir (a ++ n :: r) fs = Ok fs' -> around a n fs fs'.
Proof.
  intros H e S. rewrite (mkdir_app a (n :: r) fs e S) in H.
  destruct (at_dir_inv _ _ _ _ H) as (e0 & e' & S0 & L & S').
  rewrite S in S0. injection S0 as <-.
  exists e'. split; [exact S'|]. apply (mkdir_local n r e e' L).
Qed.

Lemma rmtree_around a n fs fs' :
  rmtree (joinpath a n) fs = (Ok (), fs') -> around a n fs fs'.
Proof.
  unfold rmtree, joinpath. rewrite split_last_snoc.
  destruct (at_dir a (remove_dir n) fs) as [fs1|x] eqn:A; [|discriminate].
  intros [= <-] e S. destruct (at_dir_inv _ _ _ _ A) as (e0 & e' & S0 & R & S').
  rewrite S in S0. injection S0 as <-.
  exists e'. split; [exact S'|]. intros m Hm.
  unfold remove_dir in R. destruct (e !! n) as [[c|old]|]; try discriminate.
  injection R as <-. apply lookup_delete_ne. congruence.
Qed.

(** ** The export stage *)

Lemma write_iconset_unfold base_png d (w : World) :
  write_iconset base_png d w =
  match (if exists_ d (files w) then shutil_rmtree d w else (Ok (), w)) with
  | (Ok _, w1) =>
      match path_mkdir d w1 with
      | (Ok _, w2) => for_each (write_icon base_png d) sizes w2
      | (Raise x, w2) => (Raise x, w2)
      end
  | (Raise x, w1) => (Raise x, w1)
  end.
Proof.
  unfold write_iconset, mbind, IO_bind, path_exists.
  destruct (exists_ d (files w)); reflexivity.
Qed.

(** The stale directory, if any, is removed first. *)
Lemma clear_inv d (w w1 : World) :
  (if exists_ d (files w) then shutil_rmtree d w else (Ok (), w)) = (Ok (), w1) ->
  stat d (files w1) = None /\ stdout w1 = stdout w /\ spawned w1 = spawned w
  /\ (forall a n, d = joinpath a n -> around a n (files w) (files w1)).
Proof.
  unfold exists_. destruct (stat d (files w)) as [nd|] eqn:S.
  - unfold shutil_rmtree. destruct (rmtree d (files w)) as [r fs'] eqn:R.
    intros [= -> <-]. simpl. split; [exact (rmtree_gone _ _ _ R)|].
    repeat split. intros a n ->. exact (rmtree_around _ _ _ _ R).
  - intros [= <-]. repeat split; [exact S|]. intros a n _. apply around_refl.
Qed.

Lemma write_iconset_inv base_png d (w w' : World) :
  write_iconset base_png d w = (Ok (), w') ->
  stat d (files w') = Some (Dir (foldl (put_icon base_png) ∅ sizes))
  /\ stdout w' = stdout w /\ spawned w' = spawned w.
Proof.
  rewrite write_iconset_unfold.
  destruct (if exists_ d (files w) then shutil_rmtree d w else (Ok (), w))
    as [[[]|x] w1] eqn:C; [|discriminate].
  destruct (clear_inv d w w1 C) as (S1 & O1 & P1 & _).
  destruct (path_mkdir d w1) as [[[]|x] w2] eqn:M; [|discriminate].
  destruct (fs_call_inv _ _ _ _ M) as (O2 & P2 & M2).
  apply mkdir_stat in M2. rewrite S1 in M2.
  destruct (for_each_icons base_png d sizes sizes_positive w2 ∅ M2 only_files_empty)
    as (w3 & R & S3 & O3 & P3).
  rewrite R. intros [= <-]. repeat split; [exact S3 | congruence | congruence].
Qed.

(** Neither the export loop nor the stage around it prints or starts
    anything, and they only touch the iconset directory. *)
Lemma write_icon_frame base_png a n entry (w w' : World) (r : result ()) :
  write_icon base_png (joinpath a n) entry w = (r, w') ->
  stdout w' = stdout w /\ spawned w' = spawned w
  /\ around a n (files w) (files w').
Proof.
  destruct entry as [name px]. unfold write_icon, mbind, IO_bind, pure, save.
  destruct (resize base_png (px, px) LANCZOS) as [im|x].
  - intros H. destruct (fs_call_inv _ _ _ _ H) as (O & P & F).
    repeat split; [exact O | exact P |]. destruct r as [[]|x].
    + rewrite write_file_snoc in F. unfold joinpath in F.
      exact (at_dir_around a n [] _ _ _ F).
    + destruct F as [_ ->]. apply around_refl.
  - intros [= <- <-]. repeat split. apply around_refl.
Qed.

Lemma for_each_frame base_png a n (l : list (string * Z)) (w w' : World) (r : result ()) :
  for_each (write_icon base_png (joinpath a n)) l w = (r, w') ->
  stdout w' = stdout w /\ spawned w' = spawned w
  /\ around a n (files w) (files w').
Proof.
  revert w. induction l as [|entry l IH]; intros w.
  - intros [= <- <-]. repeat split. apply around_refl.
  - cbn [for_each]. unfold mbind, IO_bind.
    destruct (write_icon base_png (joinpath a n) entry w) as [[[]|x] w1] eqn:R;
      destruct (write_icon_frame _ _ _ _ _ _ _ R) as (O1 & P1 & A1).
    + intros H. destruct (IH _ H) as (O2 & P2 & A2).
      repeat split; [congruence | congruence |]. exact (around_trans _ _ _ _ _ A1 A2).
    + intros [= <- <-]. auto.
Qed.

Lemma write_iconset_frame base_png a n (w w' : World) :
  write_iconset base_png (joinpath a n) w = (Ok (), w') ->
  around a n (files w) (files w').
Proof.
  rewrite write_iconset_unfold.
  destruct (if exists_ (joinpath a n) (files w) then shutil_rmtree (joinpath a n) w
            else (Ok (), w)) as [[[]|x] w1] eqn:C; [|discriminate].
  destruct (clear_inv _ w w1 C) as (_ & _ & _ & A1). specialize (A1 a n eq_refl).
  destruct (path_mkdir (joinpath a n) w1) as [[[]|x] w2] eqn:M; [|discriminate].
  destruct (fs_call_inv _ _ _ _ M) as (_ & _ & M2).
  apply (mkdir_around a n []) in M2.
  intros H. destruct (for_each_frame _ _ _ _ _ _ _ H) as (_ & _ & A3).
  exact (around_trans _ _ _ _ _ (around_trans _ _ _ _ _ A1 M2) A3).
Qed.

Lemma write_iconset_quiet base_png d (w w' : World) (r : result ()) :
  write_iconset base_png d w = (r, w') ->
  stdout w' = stdout w /\ spawned w' = spawned w.
Proof.
  rewrite write_iconset_unfold.
  assert (C0 : forall r1 w1,
    (if exists_ d (files w) then shutil_rmtree d w else (Ok (), w)) = (r1, w1) ->
    stdout w1 = stdout w /\ spawned w1 = spawned w).
  { intros r1 w1. destruct (exists_ d (files w)).
    - unfold shutil_rmtree. destruct (rmtree d (files w)). intros [= <- <-]. auto.
    - intros [= <- <-]. auto. }
  destruct (if exists_ d (files w) then shutil_rmtree d w else (Ok (), w))
    as [[[]|x] w1] eqn:C; destruct (C0 _ _ eq_refl) as [O1 P1].
  - destruct (path_mkdir d w1) as [[[]|x] w2] eqn:M;
      destruct (fs_call_inv _ _ _ _ M) as (O2 & P2 & _).
    + intros H.
      assert (Q : stdout w' = stdout w2 /\ spawned w' = spawned w2).
      { clear -H. revert w2 H. generalize sizes. intros l. induction l as [|entry l IH]; intros w2.
        - intros [= <- <-]. auto.
        - cbn [for_each]. unfold mbind, IO_bind.
          destruct (write_icon base_png d entry w2) as [[[]|x] w3] eqn:R.
          + intros H. destruct (IH _ H) as [O P].
            destruct entry as [name px]. unfold write_icon, mbind, IO_bind, pure, save in R.
            destruct (resize base_png (px, px) LANCZOS); [|discriminate].
            destruct (fs_call_inv _ _ _ _ R) as (O' & P' & _). split; congruence.
          + intros [= <- <-].
            destruct entry as [name px]. unfold write_icon, mbind, IO_bind, pure, save in R.
            destruct (resize base_png (px, px) LANCZOS).
            * destruct (fs_call_inv _ _ _ _ R) as (O' & P' & _). auto.
            * injection R as _ <-. auto. }
      destruct Q. split; congruence.
    + intros [= <- <-]. split; congruence.
  - intros [= <- <-]. auto.
Qed.

(** On an existing directory the export always succeeds. *)
Lemma write_iconset_existing base_png par n (w : World) (old : Listing) :
  stat (joinpath par n) (files w) = Some (Dir old) ->
  exists w1 w2 w',
    shutil_rmtree (joinpath par n) w = (Ok (), w1)
    /\ stat (joinpath par n) (files w1) = None
    /\ path_mkdir (joinpath par n) w1 = (Ok (), w2)
    /\ stat (joinpath par n) (files w2) = Some (Dir ∅)
    /\ for_each (write_icon base_png (joinpath par n)) sizes w2 = (Ok (), w')
    /\ write_iconset base_png (joinpath par n) w = (Ok (), w').
Proof.
  intros S. assert (Sp : exists e, stat par (files w) = Some (Dir e) /\ e !! n = Some (Dir old)).
  { unfold joinpath in S. rewrite stat_app in S.
    destruct (stat par (files w)) as [[c|e]|]; try discriminate.
    exists e. split; [reflexivity|]. simpl in S.
    destruct (e !! n) as [[c|sub]|]; try discriminate. exact S. }
  destruct Sp as (e & Sp & En).
  destruct (rmtree_dir par n (files w) e old Sp En) as (fs1 & R & S1).
  assert (G : stat (joinpath par n) fs1 = None).
  { rewrite (stat_child par n _ fs1 S1). apply lookup_delete_eq. }
  assert (M : exists fs2, mkdir (joinpath par n) fs1 = Ok fs2).
  { unfold joinpath. rewrite (mkdir_app par [n] fs1 _ S1).
    destruct (at_dir_Ok par (mkdir [n]) fs1 (delete n e) (<[n := Dir ∅]> (delete n e)) S1)
      as (fs2 & A & _); [|eauto].
    simpl. rewrite lookup_delete_eq. reflexivity. }
  destruct M as (fs2 & M).
  pose proof (mkdir_stat _ _ _ M) as S2. rewrite G in S2.
  set (w1 := set_files fs1 w). set (w2 := set_files fs2 w1).
  assert (R1 : shutil_rmtree (joinpath par n) w = (Ok (), w1)).
  { unfold shutil_rmtree. rewrite R. reflexivity. }
  assert (M1 : path_mkdir (joinpath par n) w1 = (Ok (), w2)).
  { apply fs_call_Ok. exact M. }
  destruct (for_each_icons base_png (joinpath par n) sizes sizes_positive w2 ∅ S2 only_files_empty)
    as (w' & L & _).
  exists w1, w2, w'. repeat split; try assumption.
  rewrite write_iconset_unfold. unfold exists_. rewrite S, R1, M1. exact L.
Qed.

(** Where nothing is in the way the export succeeds too. *)
Lemma write_iconset_fresh base_png d (w : World) (fs1 : Listing) :
  stat d (files w) = None -> mkdir d (files w) = Ok fs1 ->
  exists w', write_iconset base_png d w = (Ok (), w').
Proof.
  intros S M. pose proof (mkdir_stat _ _ _ M) as S1. rewrite S in S1.
  destruct (for_each_icons base_png d sizes sizes_positive (set_files fs1 w) ∅ S1 only_files_empty)
    as (w' & L & _).
  exists w'. rewrite write_iconset_unfold. unfold exists_. rewrite S.
  unfold path_mkdir. rewrite (fs_call_Ok _ _ _ M). exact L.
Qed.

Lemma iconset_listing_eq base_png : foldl (put_icon base_png) ∅ sizes = iconset_listing base_png.
Proof.
  apply map_eq. intros k. unfold iconset_listing, sizes, put_icon. simpl.
  repeat (rewrite !lookup_insert; case_decide; [reflexivity|]). reflexivity.
Qed.

(** ** The base PNG *)

Lemma write_png_unfold img p (w : World) :
  write_png img p w =
  match path_mkdir (parent p) w with
  | (Ok _, w1) => save img p w1
  | (Raise x, w1) => (Raise x, w1)
  end.
Proof. reflexivity. Qed.

Lemma write_png_quiet img p (w w' : World) (r : result ()) :
  write_png img p w = (r, w') -> stdout w' = stdout w /\ spawned w' = spawned w.
Proof.
  rewrite write_png_unfold.
  destruct (path_mkdir (parent p) w) as [[[]|x] w1] eqn:M;
    destruct (fs_call_inv _ _ _ _ M) as (O1 & P1 & _).
  - intros H. destruct (fs_call_inv _ _ _ _ H) as (O2 & P2 & _). split; congruence.
  - intros [= <- <-]. auto.
Qed.

Lemma write_png_inv img a name (w w' : World) :
  write_png img (joinpath a name) w = (Ok (), w') ->
  exists e, stat a (files w') = Some (Dir e) /\ e !! name = Some (File (PNG img)).
Proof.
  rewrite write_png_unfold, parent_joinpath.
  destruct (path_mkdir a w) as [[[]|x] w1] eqn:M; [|discriminate].
  intros H. destruct (fs_call_inv _ _ _ _ H) as (_ & _ & F).
  rewrite write_file_snoc in F.
  destruct (at_dir_inv _ _ _ _ F) as (e & e' & _ & Pt & S').
  exists e'. split; [exact S'|].
  unfold put_file in Pt. destruct (e !! name) as [[c|sub]|]; try discriminate;
    injection Pt as <-; apply lookup_insert_eq.
Qed.

(** ** Packaging *)

Lemma build_icns_unfold iconutil d p (w : World) :
  build_icns iconutil d p w =
  match mkdir (parent p) (files w) with
  | Raise x => (Raise x, w)
  | Ok fs1 =>
      match iconutil (iconutil_argv d p) fs1 with
      | None => (Raise FileNotFoundError, set_files fs1 w)
      | Some (code, fs2) =>
          (if (code =? 0)%Z then Ok () else Raise (CalledProcessError code),
           mkWorld fs2 (stdout w) (spawned w ++ [iconutil_argv d p]))
      end
  end.
Proof.
  unfold build_icns, mbind, IO_bind, path_mkdir, fs_call, subprocess_run.
  destruct (mkdir (parent p) (files w)) as [fs1|x]; [|reflexivity]. simpl.
  destruct (iconutil (iconutil_argv d p) fs1) as [[code fs2]|]; reflexivity.
Qed.

(** ** The whole pipeline *)

Lemma main_with_unfold renderer iconutil args (w : World) :
  main_with renderer iconutil args w =
  match renderer (base_size args) (Z.max 1 (supersample args)) with
  | Raise x => (Raise x, w)
  | Ok base =>
      match write_png base (base_png_path args) w with
      | (Raise x, w1) => (Raise x, w1)
      | (Ok _, w1) =>
          match write_iconset base (iconset_dir args) w1 with
          | (Raise x, w2) => (Raise x, w2)
          | (Ok _, w2) =>
              match build_icns iconutil (iconset_dir args) (icns_path args) w2 with
              | (Raise x, w3) => (Raise x, w3)
              | (Ok _, w3) =>
                  (Ok (),
                   mkWorld (files w3)
                     ((stdout w3 ++ ["wrote " +:+ str (base_png_path args)])
                        ++ ["wrote " +:+ str (icns_path args)])
                     (spawned w3))
              end
          end
      end
  end.
Proof.
  unfold main_with, pure. unfold mbind at 1. unfold IO_bind at 1.
  destruct (renderer (base_size args) (Z.max 1 (supersample args))) as [base|x]; [|reflexivity].
  unfold mbind at 1. unfold IO_bind at 1.
  destruct (write_png base (base_png_path args) w) as [[[]|x] w1]; [|reflexivity].
  unfold mbind at 1. unfold IO_bind at 1.
  destruct (write_iconset base (iconset_dir args) w1) as [[[]|x] w2]; [|reflexivity].
  unfold mbind at 1. unfold IO_bind at 1.
  destruct (build_icns iconutil (iconset_dir args) (icns_path args) w2) as [[[]|x] w3];
    reflexivity.
Qed.

(** What is on disk when the packaging stage starts. *)
Lemma before_packaging base args (w w1 w2 : World) :
  write_png base (base_png_path args) w = (Ok (), w1) ->
  write_iconset base (iconset_dir args) w1 = (Ok (), w2) ->
  stat (base_png_path args) (files w2) = Some (File (PNG base))
  /\ stat (iconset_dir args) (files w2) = Some (Dir (iconset_listing base))
  /\ mkdir (parent (icns_path args)) (files w2) = Ok (files w2)
  /\ stdout w2 = stdout w /\ spawned w2 = spawned w.
Proof.
  intros P I. unfold base_png_path, iconset_dir, icns_path in *.
  destruct (write_png_inv _ _ _ _ _ P) as (e1 & S1 & E1).
  destruct (write_png_quiet _ _ _ _ _ P) as [O1 Q1].
  destruct (write_iconset_inv _ _ _ _ I) as (S2 & O2 & Q2).
  destruct (write_iconset_frame _ _ _ _ _ I e1 S1) as (e2 & Sa & A).
  rewrite iconset_listing_eq in S2.
  repeat split; try congruence.
  - rewrite (stat_child _ _ _ _ Sa), A by discriminate. exact E1.
  - rewrite parent_joinpath. exact (mkdir_existing _ _ _ Sa).
Qed.

End PipelineFacts.

(* ================================================================== *)
(** * The specified properties *)

Import Float64 Float64Facts PIL FS Env gen_icon Spec.
Import GradientFacts PILFacts RenderFacts FSFacts PipelineFacts.

(** ** Exporter *)

Lemma snoc_cases (d : Path) : d <> [] -> exists par n, d = joinpath par n.
Proof.
  intros H. exists (removelast d), (List.last d ""). apply app_removelast_last. exact H.
Qed.

(** The export succeeds exactly where the directory can be rebuilt. *)
Lemma write_iconset_Ok_iff base_png d (w : World) :
  (exists w', write_iconset base_png d w = (Ok (), w')) <-> creatable d (files w).
Proof.
  split.
  - intros [w' H]. rewrite write_iconset_unfold in H.
    destruct (if exists_ d (files w) then shutil_rmtree d w else (Ok (), w))
      as [[[]|x] w1] eqn:C; [|discriminate].
    unfold exists_ in C. destruct (stat d (files w)) as [nd|] eqn:S.
    + unfold shutil_rmtree in C. destruct (rmtree d (files w)) as [r fs1] eqn:R.
      injection C as -> <-.
      destruct (rmtree_inv _ _ _ R) as (par & n & e & old & -> & Sp & En & _).
      split; [unfold joinpath; destruct par; discriminate|].
      apply (stat_Dir_free _ _ old). rewrite (stat_child par n e _ Sp). exact En.
    + injection C as <-. destruct (path_mkdir d w) as [[[]|x] w2] eqn:M; [|discriminate].
      destruct (fs_call_inv _ _ _ _ M) as (_ & _ & M2).
      split; [intros ->; discriminate|].
      apply (mkdir_Ok_iff d (files w)). eauto.
  - intros [Hne Hfree]. destruct (stat d (files w)) as [[c|old]|] eqn:S.
    + apply stat_File_blocked in S. congruence.
    + destruct (snoc_cases d Hne) as (par & n & ->).
      destruct (write_iconset_existing base_png par n w old S) as (w1 & w2 & w' & H).
      exists w'. apply H.
    + destruct (proj2 (mkdir_Ok_iff d (files w)) Hfree) as [fs1 M].
      exact (write_iconset_fresh base_png d w fs1 S M).
Qed.

(** The entries of the iconset directory, name by name. *)
Lemma iconset_listing_lookup base_png name nd :
  iconset_listing base_png !! name = Some nd <->
  exists px, (name, px) ∈ sizes /\ nd = icon base_png px.
Proof.
  unfold iconset_listing, sizes. split.
  - simpl. repeat (rewrite lookup_insert; case_decide;
      [intros [= <-]; subst name; refine (ex_intro _ _ (conj _ eq_refl));
       repeat first [apply list_elem_of_here | apply list_elem_of_further]|]).
    rewrite lookup_empty. discriminate.
  - intros (px & Hin & ->). simpl.
    repeat (apply elem_of_cons in Hin as [[= -> ->]|Hin]; [reflexivity|]).
    inversion Hin.
Qed.

Lemma iconset_listing_size base_png : base.size (iconset_listing base_png) = 10%nat.
Proof.
  unfold iconset_listing. simpl.
  repeat (rewrite map_size_insert_None;
    [|repeat (rewrite lookup_insert_ne by discriminate); apply lookup_empty]).
  rewrite map_size_empty. reflexivity.
Qed.

(** Claim C1.  For every base image, [write_iconset] leaves in the iconset
    directory exactly the ten PNG files of the fixed table, named
    [icon_16x16.png], [icon_16x16@2x.png], ... [icon_512x512@2x.png], with
    sides 16, 32, 32, 64, 128, 256, 256, 512, 512, 1024 whatever the size of
    the base image, each being the base image resampled to that size with the
    Lanczos filter.  It does so on every file system on which the directory
    can be built at all. *)
Theorem C1_write_iconset_ten_icons (base_png : Image) (d : Path) (w : World) :
  creatable d (files w) ->
  exists w',
    write_iconset base_png d w = (Ok (), w')
    /\ stat d (files w') = Some (Dir (iconset_listing base_png))
    /\ base.size (iconset_listing base_png) = 10%nat
    /\ forall name nd,
         iconset_listing base_png !! name = Some nd <->
         exists px,
           (name, px) ∈ [ ("icon_16x16.png", 16); ("icon_16x16@2x.png", 32);
                          ("icon_32x32.png", 32); ("icon_32x32@2x.png", 64);
                          ("icon_128x128.png", 128); ("icon_128x128@2x.png", 256);
                          ("icon_256x256.png", 256); ("icon_256x256@2x.png", 512);
                          ("icon_512x512.png", 512); ("icon_512x512@2x.png", 1024) ]%Z
           /\ nd = File (PNG (Resized base_png px px LANCZOS))
           /\ size (Resized base_png px px LANCZOS) = (px, px).
Proof.
  intros Hc. destruct (proj2 (write_iconset_Ok_iff base_png d w) Hc) as [w' H].
  exists w'. split; [exact H|].
  destruct (write_iconset_inv _ _ _ _ H) as (S & _ & _).
  rewrite iconset_listing_eq in S. split; [exact S|].
  split; [apply iconset_listing_size|].
  intros name nd. rewrite iconset_listing_lookup. unfold sizes, icon.
  split; intros (px & Hin & Hnd); exists px; [tauto | tauto].
Qed.

Lemma C1_witness :
  creatable (joinpath Samples.assets "oxidate.iconset") (files Samples.fresh)
  /\ exists w',
       write_iconset Samples.tile (joinpath Samples.assets "oxidate.iconset") Samples.fresh
       = (Ok (), w')
       /\ stat (joinpath Samples.assets "oxidate.iconset") (files w')
          = Some (Dir (iconset_listing Samples.tile)).
Proof.
  assert (Hc : creatable (joinpath Samples.assets "oxidate.iconset") (files Samples.fresh)).
  { split; [discriminate | reflexivity]. }
  split; [exact Hc|].
  destruct (C1_write_iconset_ten_icons Samples.tile _ Samples.fresh Hc) as (w' & H & S & _).
  exists w'. split; [exact H | exact S].
Defined.



(** ** Renderer *)





(** Claim C10, as the code has it: for every [base_size >= 1] and
    [supersample >= 1] the image returned by [render_icon] holds the ring,
    cut out at radius [r_inner ss], and the inner disc, drawn at radius
    [inner_r ss = r_inner ss - int(0.01 * ss)].  That radius never exceeds the
    inner radius of the ring and is strictly smaller exactly when the working
    size [ss = base_size * supersample] is at least 100. *)
Theorem C10_inner_disc_radius (base_size supersample : Z) :
  (1 <= base_size)%Z -> (1 <= supersample)%Z ->
  let ss := (base_size * supersample)%Z in
  (exists grad dot,
     render_icon base_size supersample
     = Ok (Resized (AlphaComposite (ring_and_disc ss supersample grad) dot)
             base_size base_size LANCZOS))
  /\ (0 <= inner_r ss <= r_inner ss)%Z
  /\ ((inner_r ss < r_inner ss)%Z <-> (100 <= ss)%Z).
Proof.
  intros Hb Hs ss. assert (Hss : (0 <= ss)%Z) by (unfold ss; nia).
  split.
  - exact (render_icon_ok base_size supersample Hb Hs).
  - split; [split; [apply inner_r_nonneg | apply inner_r_le]; exact Hss|].
    apply inner_r_lt_iff. exact Hss.
Qed.

Lemma C10_witness :
  (inner_r (1024 * 4) < r_inner (1024 * 4))%Z /\ (inner_r (64 * 1) <= r_inner (64 * 1))%Z.
Proof.
  split.
  - apply (C10_inner_disc_radius 1024 4); lia.
  - apply (C10_inner_disc_radius 64 1); lia.
Defined.

(** At [base_size = 64], [supersample = 1] the inner disc has the radius of
    the ring's inner edge, 18 pixels: it is not strictly smaller. *)
Lemma C10_counterexample :
  (1 <= 64)%Z /\ (1 <= 1)%Z
  /\ r_inner (64 * 1) = 18%Z /\ inner_r (64 * 1) = 18%Z
  /\ ~ (inner_r (64 * 1) < r_inner (64 * 1))%Z.
Proof. vm_compute. repeat split; discriminate. Qed.

Lemma interp_exact_div a b y height :
  (0 <= a <= 255)%Z -> (0 <= b <= 255)%Z -> (2 <= height)%Z -> (0 <= y < height)%Z ->
  interp_exact a b y height = ((a * (height - 1) + (b - a) * y) / (height - 1))%Z.
Proof.
  intros Ha Hb Hh Hy. unfold interp_exact. apply Z.quot_div_nonneg; [nia | lia].
Qed.

Lemma gradient_pixel_props top bottom y height :
  color_ok top -> color_ok bottom -> (1 <= height)%Z -> (0 <= y < height)%Z ->
  let px := gradient_pixel top bottom (Float64.int_div y (Z.max 1 (height - 1))) in
  pixel_between top bottom px
  /\ ((2 <= height)%Z -> pixel_near px (interp_exact_pixel top bottom y height))
  /\ (y = 0%Z -> px = top)
  /\ ((2 <= height)%Z -> y = (height - 1)%Z -> px = bottom).
Proof.
  destruct top as [[[t0 t1] t2] t3], bottom as [[[b0 b1] b2] b3].
  intros (T0 & T1 & T2 & T3) (B0 & B1 & B2 & B3) Hh Hy. unfold byte in *.
  assert (Hr : (0 <= y <= Z.max 1 (height - 1))%Z /\ (0 < Z.max 1 (height - 1))%Z) by lia.
  destruct Hr as [Hr Hn]. pose proof (int_div_unit y _ Hr Hn) as Ht.
  set (t := Float64.int_div y (Z.max 1 (height - 1))) in *.
  cbv zeta. cbn [gradient_pixel pixel_between pixel_near interp_exact_pixel].
  split; [|split; [|split]].
  - pose proof (channel_range t0 b0 t T0 B0 Ht). pose proof (channel_range t1 b1 t T1 B1 Ht).
    pose proof (channel_range t2 b2 t T2 B2 Ht). pose proof (channel_range t3 b3 t T3 B3 Ht).
    tauto.
  - intros H2. subst t. replace (Z.max 1 (height - 1)) with (height - 1)%Z in * by lia.
    rewrite !interp_exact_div by (assumption || lia).
    repeat apply conj; apply channel_near_exact; assumption.
  - intros Hy0. subst t. subst y.
    rewrite !channel_at_0 by (assumption || apply int_div_0). reflexivity.
  - intros H2 Hy1. subst t. subst y.
    replace (Z.max 1 (height - 1)) with (height - 1)%Z in * by lia.
    rewrite !channel_at_1 by (assumption || (apply int_div_same; lia)). reflexivity.
Qed.

(** Claim C8, as the code has it: for every [height >= 1] and byte-valued
    colours, [_make_vertical_gradient height top bottom] returns a 1 by
    [height] RGBA image whose pixel at row [y] has, in every channel
    including alpha, the value [int(top + (bottom - top) * t)] computed in
    double precision from the rounded ratio [t = y / max(1, height - 1)].
    That value lies between the two colours and is within one unit of the
    exact interpolation [int(top + (bottom - top) * y / (height - 1))]; the
    top row is the top colour, the bottom row is the bottom colour, and for
    [height = 1] the divisor is guarded and the single row is the top
    colour. *)
Theorem C8_vertical_gradient (height : Z) (top bottom : Color) :
  (1 <= height)%Z -> color_ok top -> color_ok bottom ->
  exists img,
    _make_vertical_gradient height top bottom = Ok img
    /\ size img = (1, height)%Z /\ mode img = RGBA
    /\ (forall y, (0 <= y < height)%Z ->
          let px := gradient_pixel top bottom (Float64.int_div y (Z.max 1 (height - 1))) in
          getpixel img 0 y = Some (Rgba px)
          /\ pixel_between top bottom px
          /\ ((2 <= height)%Z -> pixel_near px (interp_exact_pixel top bottom y height)))
    /\ getpixel img 0 0 = Some (Rgba top)
    /\ ((2 <= height)%Z -> getpixel img 0 (height - 1) = Some (Rgba bottom)).
Proof.
  intros Hh Htop Hbot.
  destruct (gradient_spec height top bottom Htop Hbot Hh) as (img & H & Hs & Hm & Hpx).
  exists img. repeat (split; [assumption|]). split; [|split].
  - intros y Hy px.
    destruct (gradient_pixel_props top bottom y height Htop Hbot Hh Hy) as (Bt & Nr & _).
    split; [exact (Hpx y Hy)|]. split; assumption.
  - rewrite (Hpx 0%Z) by lia.
    destruct (gradient_pixel_props top bottom 0 height Htop Hbot Hh ltac:(lia)) as (_ & _ & E & _).
    rewrite (E eq_refl). reflexivity.
  - intros H2. rewrite (Hpx (height - 1)%Z) by lia.
    destruct (gradient_pixel_props top bottom (height - 1) height Htop Hbot Hh ltac:(lia))
      as (_ & _ & _ & E).
    rewrite (E H2 eq_refl). reflexivity.
Qed.

Lemma C8_witness :
  exists img,
    _make_vertical_gradient 4096 (245, 150, 45, 255)%Z (205, 120, 35, 255)%Z = Ok img
    /\ size img = (1, 4096)%Z
    /\ getpixel img 0 0 = Some (Rgba (245, 150, 45, 255)%Z)
    /\ getpixel img 0 4095 = Some (Rgba (205, 120, 35, 255)%Z).
Proof.
  destruct (C8_vertical_gradient 4096 (245, 150, 45, 255)%Z (205, 120, 35, 255)%Z)
    as (img & H & Hs & _ & _ & Ht & Hb).
  - lia.
  - unfold color_ok, byte. lia.
  - unfold color_ok, byte. lia.
  - exists img. repeat (split; [assumption|]). apply Hb. lia.
Defined.

(** In a gradient of 50 rows from red 0 to red 49, row 1 is exactly one
    forty-ninth of the way down, where the interpolation formula gives red 1,
    in exact arithmetic and also when [(49 - 0) * 1 / (50 - 1)] is evaluated
    from left to right in double precision.  The code computes
    [49 * (1 / 49)] in double precision, which is just below 1, and stores
    red 0. *)
Lemma C8_counterexample :
  exists img,
    _make_vertical_gradient 50 (0, 0, 0, 255)%Z (49, 0, 0, 255)%Z = Ok img
    /\ getpixel img 0 1 = Some (Rgba (0, 0, 0, 255)%Z)
    /\ interp_exact_pixel (0, 0, 0, 255)%Z (49, 0, 0, 255)%Z 1 50 = (1, 0, 0, 255)%Z
    /\ Float64.mul (Float64.of_int 49) (Float64.int_div 1 49)
       = (9007199254740991 # 9007199254740992)%Q
    /\ Float64.trunc (Float64.add (Float64.of_int 0) (Float64.int_div ((49 - 0) * 1) (50 - 1)))
       = 1%Z.
Proof. vm_compute. eexists. repeat split. Qed.

(** ** Exporter, on the 64-pixel base image *)

(** Claim C9, as the code has it: for [base_size = 64], [supersample = 1] the
    renderer returns a 64 by 64 RGBA image, and the exporter writes
    [icon_512x512@2x.png] as a 1024 by 1024 image obtained by resampling
    that 64 by 64 base image. *)
Theorem C9_small_base_upsampled :
  exists base,
    render_icon 64 1 = Ok base /\ mode base = RGBA /\ size base = (64, 64)%Z
    /\ forall d (w w' : World),
         write_iconset base d w = (Ok (), w') ->
         stat (joinpath d "icon_512x512@2x.png") (files w')
         = Some (File (PNG (Resized base 1024 1024 LANCZOS)))
         /\ size (Resized base 1024 1024 LANCZOS) = (1024, 1024)%Z.
Proof.
  destruct (render_icon_ok 64 1) as (grad & dot & H); [lia | lia |].
  eexists. split; [exact H|]. split; [reflexivity|]. split; [reflexivity|].
  intros d w w' Hw. destruct (write_iconset_inv _ _ _ _ Hw) as (S & _ & _).
  rewrite iconset_listing_eq in S. rewrite (stat_child d _ _ _ S). split; reflexivity.
Qed.

Lemma C9_witness :
  exists base w',
    render_icon 64 1 = Ok base
    /\ write_iconset base (joinpath Samples.assets "oxidate.iconset") Samples.fresh = (Ok (), w')
    /\ stat (joinpath (joinpath Samples.assets "oxidate.iconset") "icon_512x512@2x.png") (files w')
       = Some (File (PNG (Resized base 1024 1024 LANCZOS))).
Proof.
  destruct C9_small_base_upsampled as (base & R & _ & _ & H).
  destruct (write_iconset base (joinpath Samples.assets "oxidate.iconset") Samples.fresh)
    as [[[]|x] w'] eqn:W; [|vm_compute in W; discriminate].
  exists base, w'. split; [exact R|]. split; [exact W|]. apply (H _ _ _ W).
Defined.

(** The file [icon_512x512@2x.png] made from the 64 by 64 base image is
    1024 pixels wide, not 64. *)
Lemma C9_counterexample :
  exists base w' im,
    render_icon 64 1 = Ok base /\ size base = (64, 64)%Z
    /\ write_iconset base (joinpath Samples.assets "oxidate.iconset") Samples.fresh = (Ok (), w')
    /\ stat (joinpath (joinpath Samples.assets "oxidate.iconset") "icon_512x512@2x.png") (files w')
       = Some (File (PNG im))
    /\ size im = (1024, 1024)%Z /\ size im <> (64, 64)%Z.
Proof.
  destruct (render_icon_ok 64 1) as (grad & dot & H); [lia | lia |].
  match type of H with _ = Ok ?b => set (base := b) in * end.
  destruct (write_iconset base (joinpath Samples.assets "oxidate.iconset") Samples.fresh)
    as [[[]|x] w'] eqn:W; [|vm_compute in W; discriminate].
  destruct (write_iconset_inv _ _ _ _ W) as (S & _ & _).
  rewrite iconset_listing_eq in S.
  exists base, w', (Resized base 1024 1024 LANCZOS).
  split; [exact H|]. split; [reflexivity|]. split; [exact W|].
  rewrite (stat_child _ "icon_512x512@2x.png" _ _ S).
  split; [reflexivity|]. split; [reflexivity | discriminate].
Qed.

(** ** Command line and packaging *)




(** Claim C5, as the code has it: [build_icns] raises if and only if the parent
    directory of the destination cannot be created, or the external utility
    cannot be started, or it exits with a non-zero status; the utility is
    started at most once.  When [build_icns] runs as the last stage of [main]
    the first cause cannot occur.  An error of any stage leaves [main]
    uncaught and the process exits non-zero; on success the program prints
    the two written paths and exits zero. *)
Theorem C5_packaging_errors (iconutil : Program) (d p : Path) (args : Args) (w : World) :
  ((exists e w', build_icns iconutil d p w = (Raise e, w')) <->
   (exists e, mkdir (parent p) (files w) = Raise e)
   \/ (exists fs1, mkdir (parent p) (files w) = Ok fs1
       /\ (iconutil (iconutil_argv d p) fs1 = None
           \/ exists code fs2,
                iconutil (iconutil_argv d p) fs1 = Some (code, fs2) /\ code <> 0%Z)))
  /\ (forall r w', build_icns iconutil d p w = (r, w') ->
        stdout w' = stdout w
        /\ (spawned w' = spawned w \/ spawned w' = spawned w ++ [iconutil_argv d p]))
  /\ (forall base w1 w2 r w3,
        write_png base (base_png_path args) w = (Ok (), w1) ->
        write_iconset base (iconset_dir args) w1 = (Ok (), w2) ->
        build_icns iconutil (iconset_dir args) (icns_path args) w2 = (r, w3) ->
        (exists e, r = Raise e) <->
        (iconutil (iconutil_argv (iconset_dir args) (icns_path args)) (files w2) = None
         \/ exists code fs2,
              iconutil (iconutil_argv (iconset_dir args) (icns_path args)) (files w2)
              = Some (code, fs2) /\ code <> 0%Z))
  /\ (forall e w', main iconutil args w = (Raise e, w') ->
        exit_status iconutil args w = (1%Z, w'))
  /\ (forall w', main iconutil args w = (Ok (), w') ->
        exit_status iconutil args w = (0%Z, w')
        /\ stdout w' = stdout w ++ [ "wrote " +:+ str (base_png_path args);
                                     "wrote " +:+ str (icns_path args) ]).
Proof.
  split; [|split; [|split; [|split]]].
  - rewrite build_icns_unfold.
    destruct (mkdir (parent p) (files w)) as [fs1|x] eqn:M.
    + destruct (iconutil (iconutil_argv d p) fs1) as [[code fs2]|] eqn:U.
      * destruct (Z.eqb_spec code 0) as [->|N]; split.
        -- intros (e & w' & H). discriminate.
        -- intros [[e H]|(fs & [= <-] & [H|(c & f & H & Hc)])]; congruence.
        -- intros _. right. exists fs1. split; [reflexivity|]. right. eauto.
        -- intros _. eauto.
      * split; [|eauto]. intros _. right. exists fs1. auto.
    + split; [|eauto]. intros _. left. eauto.
  - intros r w'. rewrite build_icns_unfold.
    destruct (mkdir (parent p) (files w)) as [fs1|x]; [|intros [= <- <-]; auto].
    destruct (iconutil (iconutil_argv d p) fs1) as [[code fs2]|]; intros [= <- <-]; simpl; auto.
  - intros base w1 w2 r w3 P I. destruct (before_packaging base args w w1 w2 P I) as (_ & _ & M & _).
    rewrite build_icns_unfold, M.
    destruct (iconutil _ (files w2)) as [[code fs2]|] eqn:U.
    + destruct (Z.eqb_spec code 0) as [->|N]; intros [= <- <-]; split.
      * intros [e H]. discriminate.
      * intros [H|(c & f & [= <- <-] & Hc)]; [discriminate | congruence].
      * intros _. right. eauto.
      * intros _. eauto.
    + intros [= <- <-]. split; [auto | eauto].
  - intros e w' H. unfold exit_status. rewrite H. reflexivity.
  - intros w' H. unfold exit_status. rewrite H. split; [reflexivity|].
    unfold main in H. rewrite main_with_unfold in H.
    destruct (render_icon _ _) as [base|x]; [|discriminate].
    destruct (write_png _ _ w) as [[[]|x] w1] eqn:P; [|discriminate].
    destruct (write_iconset _ _ w1) as [[[]|x] w2] eqn:I; [|discriminate].
    destruct (build_icns _ _ _ w2) as [[[]|x] w3] eqn:B; [|discriminate].
    injection H as <-. simpl.
    destruct (write_png_quiet _ _ _ _ _ P) as [O1 _].
    destruct (write_iconset_quiet _ _ _ _ _ I) as [O2 _].
    rewrite build_icns_unfold in B.
    destruct (mkdir _ (files w2)) as [fs1|x]; [|discriminate].
    destruct (iconutil _ fs1) as [[code fs2]|]; [|discriminate].
    injection B as _ <-. simpl. rewrite O2, O1, <- app_assoc. reflexivity.
Qed.

Lemma C5_witness :
  (exists w',
     main Samples.iconutil_idle (mkArgs Samples.assets 2 1) Samples.fresh = (Ok (), w')
     /\ exit_status Samples.iconutil_idle (mkArgs Samples.assets 2 1) Samples.fresh = (0%Z, w')
     /\ stdout w' = ["wrote assets/oxidate.png"; "wrote assets/oxidate.icns"])
  /\ (exists w',
        main Samples.iconutil_fails (mkArgs Samples.assets 2 1) Samples.fresh
        = (Raise (CalledProcessError 1), w')
        /\ exit_status Samples.iconutil_fails (mkArgs Samples.assets 2 1) Samples.fresh
           = (1%Z, w')).
Proof.
  split.
  - destruct (main Samples.iconutil_idle (mkArgs Samples.assets 2 1) Samples.fresh)
      as [[[]|x] w'] eqn:H; [|vm_compute in H; discriminate].
    exists w'. split; [reflexivity|].
    apply (C5_packaging_errors Samples.iconutil_idle [] [] (mkArgs Samples.assets 2 1)
             Samples.fresh).
    exact H.
  - destruct (main Samples.iconutil_fails (mkArgs Samples.assets 2 1) Samples.fresh)
      as [[[]|x] w'] eqn:H; [vm_compute in H; discriminate|].
    assert (x = CalledProcessError 1) by (vm_compute in H; congruence). subst x.
    exists w'. split; [reflexivity|].
    destruct (C5_packaging_errors Samples.iconutil_fails [] [] (mkArgs Samples.assets 2 1)
                Samples.fresh) as (_ & _ & _ & E & _).
    exact (E _ _ H).
Defined.

(** [build_icns] raises although the utility never exits with a non-zero
    status: once because a regular file stands where the destination
    directory should be (the utility is not even started), once because the
    utility is not installed. *)
Lemma C5_counterexample :
  build_icns Samples.iconutil_idle
    (joinpath Samples.assets "oxidate.iconset") (joinpath Samples.assets "oxidate.icns")
    Samples.clobbered
  = (Raise FileExistsError, Samples.clobbered)
  /\ (forall argv fs code fs', Samples.iconutil_idle argv fs = Some (code, fs') -> code = 0%Z)
  /\ build_icns Samples.iconutil_missing
       (joinpath Samples.assets "oxidate.iconset") (joinpath Samples.assets "oxidate.icns")
       Samples.fresh
     = (Raise FileNotFoundError,
        mkWorld {[ "assets" := Dir ∅ ]} [] [])
  /\ (forall argv fs, Samples.iconutil_missing argv fs = None).
Proof.
  split; [reflexivity|]. split; [intros argv fs code fs' [= <- _]; reflexivity|].
  split; [reflexivity|]. reflexivity.
Qed.

(** Claim C6.  The pipeline in [main] is strictly sequential: render, write
    [oxidate.png], write the iconset, package.  A failing run stopped in
    exactly one stage and ends in the world that stage left behind: no later
    stage ran, nothing was printed.  In every run in which the packaging
    stage is the one that fails, [oxidate.png] and the fully populated
    iconset directory were on disk when packaging started. *)
Theorem C6_pipeline_sequential (iconutil : Program) (args : Args) (w w' : World) (e : Exn) :
  main iconutil args w = (Raise e, w') ->
  let rendered := render_icon (base_size args) (Z.max 1 (supersample args)) in
  (rendered = Raise e /\ w' = w)
  \/ exists base, rendered = Ok base /\
     ((write_png base (base_png_path args) w = (Raise e, w')
       /\ stdout w' = stdout w /\ spawned w' = spawned w)
      \/ exists w1, write_png base (base_png_path args) w = (Ok (), w1) /\
         ((write_iconset base (iconset_dir args) w1 = (Raise e, w')
           /\ stdout w' = stdout w /\ spawned w' = spawned w)
          \/ exists w2, write_iconset base (iconset_dir args) w1 = (Ok (), w2)
             /\ build_icns iconutil (iconset_dir args) (icns_path args) w2 = (Raise e, w')
             /\ stat (base_png_path args) (files w2) = Some (File (PNG base))
             /\ stat (iconset_dir args) (files w2) = Some (Dir (iconset_listing base))
             /\ stdout w' = stdout w
             /\ (iconutil (iconutil_argv (iconset_dir args) (icns_path args)) (files w2) = None ->
                 files w' = files w2 /\ spawned w' = spawned w))).
Proof.
  intros H rendered. unfold main in H. rewrite main_with_unfold in H. fold rendered in H.
  destruct rendered as [base|x] eqn:R.
  - right. exists base. split; [reflexivity|].
    destruct (write_png base (base_png_path args) w) as [[[]|x] w1] eqn:P.
    + right. exists w1. split; [reflexivity|].
      destruct (write_png_quiet _ _ _ _ _ P) as [O1 Q1].
      destruct (write_iconset base (iconset_dir args) w1) as [[[]|x] w2] eqn:I.
      * right. exists w2. split; [reflexivity|].
        destruct (before_packaging base args w w1 w2 P I) as (Sp & Si & M & O2 & Q2).
        destruct (build_icns iconutil (iconset_dir args) (icns_path args) w2)
          as [[[]|x] w3] eqn:B; [discriminate|].
        injection H as <- <-. split; [reflexivity|].
        split; [exact Sp|]. split; [exact Si|].
        rewrite build_icns_unfold, M in B.
        destruct (iconutil _ (files w2)) as [[code fs2]|].
        -- injection B as _ <-. simpl. split; [exact O2 | discriminate].
        -- injection B as _ <-. simpl. split; [exact O2|]. intros _. split; [reflexivity | exact Q2].
      * injection H as <- <-. left. split; [reflexivity|].
        destruct (write_iconset_quiet _ _ _ _ _ I) as [O2 Q2]. split; congruence.
    + injection H as <- <-. left. split; [reflexivity|].
      exact (write_png_quiet _ _ _ _ _ P).
  - injection H as <- <-. left. auto.
Qed.

Lemma C6_witness :
  exists base w2 w',
    main Samples.iconutil_missing (mkArgs Samples.assets 2 1) Samples.fresh
    = (Raise FileNotFoundError, w')
    /\ build_icns Samples.iconutil_missing
         (joinpath Samples.assets "oxidate.iconset") (joinpath Samples.assets "oxidate.icns") w2
       = (Raise FileNotFoundError, w')
    /\ stat (joinpath Samples.assets "oxidate.png") (files w2) = Some (File (PNG base))
    /\ stat (joinpath Samples.assets "oxidate.iconset") (files w2)
       = Some (Dir (iconset_listing base)).
Proof.
  destruct (main Samples.iconutil_missing (mkArgs Samples.assets 2 1) Samples.fresh)
    as [[[]|x] w'] eqn:H; [vm_compute in H; discriminate|].
  assert (x = FileNotFoundError) by (vm_compute in H; congruence). subst x.
  destruct (C6_pipeline_sequential _ _ _ _ _ H)
    as [[R _]|(base & R & [(P & _)|(w1 & P & [(I & _)|(w2 & I & B & Sp & Si & _)])])].
  - vm_compute in R. discriminate.
  - vm_compute in R. injection R as <-. vm_compute in P. discriminate.
  - vm_compute in R. injection R as <-. vm_compute in P. injection P as <-.
    vm_compute in I. discriminate.
  - exists base, w2, w'. repeat split; assumption.
Defined.
